(** * hyperio, trio backend: a verification model of [hyperio/backends/trio.py]

    The development follows the layout of the source file: the awaitable
    wrapper, timeouts, task groups, socket streams, endpoint factories.
    Every definition is an executable translation of the function of the
    same name.  Loops that the source writes as [while] are given a round
    budget ([fuel]); a run that exhausts every budget is a run that never
    returns. *)

From Stdlib.Strings Require Import String Byte.
From Stdlib Require Import List ZArith Lia Bool Arith Permutation.
Import ListNotations.

Set Warnings "-register-all".

(** ** Bytes *)

Definition bytes := list byte.

(** [b"..."] literals. *)
Definition b (s : string) : bytes := list_byte_of_string s.

Definition LF : bytes := [x0a].
Definition CRLF : bytes := [x0d; x0a].

(** [buf.startswith(sub)] *)
Fixpoint starts_with (sub buf : bytes) : bool :=
  match sub, buf with
  | [], _ => true
  | _ :: _, [] => false
  | x :: sub', y :: buf' => Byte.eqb x y && starts_with sub' buf'
  end.

(** Lowest index at which [sub] occurs in [buf], scanning left to right. *)
Fixpoint index_of (sub buf : bytes) : option nat :=
  if starts_with sub buf then Some 0
  else match buf with
       | [] => None
       | _ :: buf' => option_map S (index_of sub buf')
       end.

(** Python's [buf.find(sub, start)]: a negative [start] counts from the end
    of [buf] (and is clamped at 0); the result is [-1] when there is no
    occurrence at or after [start]. *)
Definition find (buf sub : bytes) (start : Z) : Z :=
  let len := Z.of_nat (length buf) in
  let start' := if (start <? 0)%Z then Z.max 0 (start + len) else start in
  if (len <? start')%Z then (-1)%Z
  else match index_of sub (skipn (Z.to_nat start') buf) with
       | Some i => (start' + Z.of_nat i)%Z
       | None => (-1)%Z
       end.

(** ** Exceptions and outcomes *)

(** A traceback is the chain of frames an exception went through, the
    frame that raised last first. *)
Definition traceback := list string.

(** Modelled from the spec: [ExceptionGroup] and [DelimiterNotFound]
    ([hyperio/exceptions.py]) are not among the sources.  The first is
    the "single aggregate error preserving each original error", built
    from the list of errors; the second is the "delimiter not found"
    error "attaching the bytes accumulated so far", built from those
    bytes and the flag the source passes ([False]).  The other
    constructors are Python's and the scheduler's own; [AppError] stands
    for any error raised by application code. *)

Inductive exn : Type :=
| AppError (tag : nat)
| OSError (errno : nat)
| RuntimeError (msg : string)
| Cancelled
| TooSlowError (tb : traceback)
| TimeoutError (tb : traceback)
| MultiError (exceptions : list exn)
| ExceptionGroup (exceptions : list exn)
| DelimiterNotFound (data : bytes) (flag : bool).

(** What a call does: it returns, it raises, or it is still looping when
    the round budget is used up. *)
Inductive outcome (A : Type) : Type :=
| Returned (a : A)
| Raised (e : exn)
| Diverged.

Arguments Returned {A} a.
Arguments Raised {A} e.
Arguments Diverged {A}.

(** ** Scoped blocks *)

(** How the block under an [async with] is left.  An early [return] (or
    [break]) inside the block reaches the context manager as a normal
    exit; only an exception is thrown into the generator at its
    [yield_]. *)
Inductive block_exit : Type :=
| Completed
| EarlyReturn
| Failed (e : exn).

(** ** Awaitable wrappers *)

Module Awaitable.

(** What an [await] drives: a generator that suspends some number of
    times and then returns. *)
Inductive generator (R : Type) : Type :=
| Yield (next : generator R)
| Return (r : R).

Arguments Yield {R} next.
Arguments Return {R} r.

Fixpoint suspensions {R} (g : generator R) : nat :=
  match g with
  | Yield next => S (suspensions next)
  | Return _ => 0
  end.

Fixpoint result {R} (g : generator R) : R :=
  match g with
  | Yield next => result next
  | Return r => r
  end.

(** [dummy_awaitable = DummyAwaitable()]: one instance, shared by every
    wrapper. *)
Inductive DummyAwaitable : Type := dummy_awaitable.

(** [DummyAwaitable.__await__]
<<
    def __await__(self):
        if False:
            yield
>> *)
Definition DummyAwaitable__await__ (self : DummyAwaitable) : generator unit :=
  (if false then Yield else fun rest => rest) (Return tt).

(** What a synchronous call hands back. *)
Inductive value : Type :=
| PyNone
| PyAwaitable (a : DummyAwaitable).

(** A callable acting on a state of type [St]. *)
Definition callable (St Args : Type) : Type :=
  Args -> St -> outcome value * St.

(** [wrap_as_awaitable]
<<
    def wrapper( *args, **kwargs):
        func( *args, **kwargs)
        return dummy_awaitable
>> *)
Definition wrap_as_awaitable {St Args} (func : callable St Args)
  : callable St Args :=
  fun args st =>
    match func args st with
    | (Returned _, st') => (Returned (PyAwaitable dummy_awaitable), st')
    | (Raised e, st') => (Raised e, st')
    | (Diverged, st') => (Diverged, st')
    end.

End Awaitable.

(** ** The scheduler underneath *)

Module Trio.
Import Awaitable.

(** A cancel scope of the scheduler: whether cancellation was requested,
    and how many times its own [cancel] ran. *)
Record scope_state : Type := {
  cancel_called : bool;
  cancel_calls : nat
}.

(** [CancelScope.cancel]: synchronous, returns [None]. *)
Definition CancelScope_cancel : callable scope_state unit :=
  fun _ st =>
    (Returned PyNone,
     {| cancel_called := true; cancel_calls := S (cancel_calls st) |}).

(** The scope object: its state and its (rebindable) [cancel]
    attribute. *)
Record cancel_scope : Type := {
  state : scope_state;
  cancel : callable scope_state unit
}.

Definition new_cancel_scope : cancel_scope :=
  {| state := {| cancel_called := false; cancel_calls := 0 |};
     cancel := CancelScope_cancel |}.

(** [scope.cancel()] *)
Definition call_cancel (cs : cancel_scope) : outcome value * cancel_scope :=
  let (r, st') := cancel cs tt (state cs) in
  (r, {| state := st'; cancel := cancel cs |}).

(** A child task, by how it ends in the run at hand: it completes, or it
    ends with an error; and when, on the clock of the run. *)
Record task : Type := {
  task_name : option string;
  task_error : option exn;
  task_finished : nat
}.

(** A nursery: the children started in it, its cancel scope, whether it
    is closed to new arrivals, and when the block under it ended (on the
    clock of [task_finished]). *)
Record nursery : Type := {
  children : list task;
  nursery_scope : cancel_scope;
  closed : bool;
  body_finished : nat
}.

Definition open_nursery : nursery :=
  {| children := []; nursery_scope := new_cancel_scope;
     closed := false; body_finished := 0 |}.

Definition closed_message : string := "Nursery is closed to new arrivals".

(** [nursery.start_soon(func, *args, name=name)]: a closed nursery
    refuses the task. *)
Definition start_soon (n : nursery) (t : task) : outcome unit * nursery :=
  if closed n then (Raised (RuntimeError closed_message), n)
  else (Returned tt,
        {| children := children n ++ [t];
           nursery_scope := nursery_scope n;
           closed := closed n;
           body_finished := body_finished n |}).

(** The nursery once its block and every child have ended. *)
Definition close_nursery (n : nursery) : nursery :=
  {| children := children n;
     nursery_scope := nursery_scope n;
     closed := true;
     body_finished := body_finished n |}.

(** The errors among a list of ended tasks, in the order of the list.
    Any error that reaches the nursery cancels its scope, and the scope
    catches its own cancellation signal: [Cancelled] is left out. *)
Fixpoint errors_of (ts : list task) : list exn :=
  match ts with
  | [] => []
  | t :: ts' =>
      match task_error t with
      | None | Some Cancelled => errors_of ts'
      | Some e => e :: errors_of ts'
      end
  end.

(** Tasks in the order in which they ended. *)
Fixpoint insert_by_finish (t : task) (ts : list task) : list task :=
  match ts with
  | [] => [t]
  | u :: ts' =>
      if task_finished t <=? task_finished u then t :: u :: ts'
      else u :: insert_by_finish t ts'
  end.

Fixpoint by_finish (ts : list task) : list task :=
  match ts with
  | [] => []
  | t :: ts' => insert_by_finish t (by_finish ts')
  end.

(** The errors a nursery collects from its children: in the order in
    which the children ended, not the order in which they were
    started. *)
Definition child_errors (ts : list task) : list exn :=
  errors_of (by_finish ts).

(** The block under the nursery, seen as one more task. *)
Definition body_task (body_error : option exn) (n : nursery) : task :=
  {| task_name := None;
     task_error := body_error;
     task_finished := body_finished n |}.

(** Leaving the nursery block: the block and every child have ended, and
    their errors were collected as they came; no error, the block is left
    normally; one error, it is raised as it is; several, they are raised
    together as a [MultiError]. *)
Definition nursery_exit (body_error : option exn) (n : nursery)
  : outcome unit :=
  let errors :=
    errors_of (by_finish (body_task body_error n :: children n)) in
  match errors with
  | [] => Returned tt
  | [e] => Raised e
  | _ => Raised (MultiError errors)
  end.

(** An operation under a deadline, by how long it takes and how it ends
    when left alone (times in milliseconds). *)
Record operation (A : Type) : Type := {
  duration : nat;
  completion : outcome A
}.

Arguments duration {A} o.
Arguments completion {A} o.

(** The frames of the scheduler's own [fail_after] block, which raises
    [TooSlowError]. *)
Definition fail_at_frames : traceback := ["trio.fail_at"%string].

(** [with trio.fail_after(seconds): op]: an operation that outlasts the
    deadline is cancelled, and the block raises [TooSlowError]. *)
Definition fail_after {A} (seconds : nat) (op : operation A) : outcome A :=
  if seconds <? duration op then Raised (TooSlowError fail_at_frames)
  else completion op.

(** [with trio.move_on_after(seconds): op]: the same deadline, but the
    cancellation is swallowed; the body's value is lost with it. *)
Definition move_on_after {A} (seconds : nat) (op : operation A)
  : outcome (option A) :=
  if seconds <? duration op then Returned None
  else match completion op with
       | Returned a => Returned (Some a)
       | Raised e => Raised e
       | Diverged => Diverged
       end.

End Trio.

(** ** Timeouts and cancellation *)

Module Timeouts.
Import Awaitable.

(** [open_cancel_scope]
<<
    with trio.open_cancel_scope() as cancel_scope:
        cancel_scope.cancel = wrap_as_awaitable(cancel_scope.cancel)
        await yield_(cancel_scope)
>>
    The scope swallows the cancellation signal when it was itself
    cancelled. *)
Definition open_cancel_scope
    (block : Trio.cancel_scope -> block_exit * Trio.cancel_scope)
  : outcome unit * Trio.cancel_scope :=
  let cancel_scope := Trio.new_cancel_scope in
  let cancel_scope :=
    {| Trio.state := Trio.state cancel_scope;
       Trio.cancel := wrap_as_awaitable (Trio.cancel cancel_scope) |} in
  let (exit, cancel_scope) := block cancel_scope in
  (match exit with
   | Failed Cancelled =>
       if Trio.cancel_called (Trio.state cancel_scope) then Returned tt
       else Raised Cancelled
   | Failed e => Raised e
   | Completed | EarlyReturn => Returned tt
   end, cancel_scope).

(** [move_on_after] *)
Definition move_on_after {A} (seconds : nat) (op : Trio.operation A)
  : outcome (option A) :=
  Trio.move_on_after seconds op.

(** Raising in a frame puts that frame in front of the traceback the
    exception already carries. *)
Definition raise_in (frame : string) (tb : traceback) : traceback :=
  frame :: tb.

(** The handler of [fail_after]:
<<
    except trio.TooSlowError as exc:
        raise TimeoutError().with_traceback(exc.__traceback__) from None
>>
    Any other outcome passes through. *)
Definition except_TooSlowError {A} (r : outcome A) : outcome A :=
  match r with
  | Raised (TooSlowError exc__traceback__) =>
      Raised (TimeoutError (raise_in "fail_after" exc__traceback__))
  | r => r
  end.

(** [fail_after]
<<
    try:
        with trio.fail_after(seconds) as s:
            await yield_(s)
    except trio.TooSlowError as exc:
        raise TimeoutError().with_traceback(exc.__traceback__) from None
>> *)
Definition fail_after {A} (seconds : nat) (op : Trio.operation A)
  : outcome A :=
  except_TooSlowError (Trio.fail_after seconds op).

End Timeouts.

(** ** Task groups *)

Module TaskGroups.
Import Awaitable.

Record TaskGroup : Type := {
  _active : bool;
  _nursery : Trio.nursery
}.

(** [TaskGroup.__init__]
<<
    self._active = True
    self._nursery = nursery
    nursery.cancel_scope.cancel = wrap_as_awaitable(nursery.cancel_scope.cancel)
>> *)
Definition TaskGroup__init__ (nursery : Trio.nursery) : TaskGroup :=
  {| _active := true;
     _nursery :=
       {| Trio.children := Trio.children nursery;
          Trio.nursery_scope :=
            {| Trio.state := Trio.state (Trio.nursery_scope nursery);
               Trio.cancel :=
                 wrap_as_awaitable
                   (Trio.cancel (Trio.nursery_scope nursery)) |};
          Trio.closed := Trio.closed nursery;
          Trio.body_finished := Trio.body_finished nursery |} |}.

(** [TaskGroup.cancel_scope] *)
Definition cancel_scope (self : TaskGroup) : Trio.cancel_scope :=
  Trio.nursery_scope (_nursery self).

Definition not_active_message : string :=
  "This task group is not active; no new tasks can be spawned.".

(** [TaskGroup.spawn]
<<
    if not self._active:
        raise RuntimeError('This task group is not active; ...')
    self._nursery.start_soon(func, *args, name=name)
>> *)
Definition spawn (self : TaskGroup) (t : Trio.task)
  : outcome unit * TaskGroup :=
  if negb (_active self) then (Raised (RuntimeError not_active_message), self)
  else let (r, nursery) := Trio.start_soon (_nursery self) t in
       (r, {| _active := _active self; _nursery := nursery |}).

Definition set_active (v : bool) (tg : TaskGroup) : TaskGroup :=
  {| _active := v; _nursery := _nursery tg |}.

(** [create_task_group]
<<
    try:
        async with trio.open_nursery() as nursery:
            tg = TaskGroup(nursery)
            await yield_(tg)
            tg._active = False
    except trio.MultiError as exc:
        raise ExceptionGroup(exc.exceptions) from None
>>
    The block receives the group and leaves it as its spawns made it;
    when the nursery block has been left, the nursery is closed. *)
Definition create_task_group
    (block : TaskGroup -> block_exit * TaskGroup)
  : outcome unit * TaskGroup :=
  let nursery := Trio.open_nursery in
  let tg := TaskGroup__init__ nursery in
  let (exit, tg) := block tg in
  let (body_error, tg) :=
    match exit with
    | Failed e => (Some e, tg)
    | Completed | EarlyReturn => (None, set_active false tg)
    end in
  let left := Trio.nursery_exit body_error (_nursery tg) in
  let tg :=
    {| _active := _active tg; _nursery := Trio.close_nursery (_nursery tg) |} in
  match left with
  | Raised (MultiError exceptions) => (Raised (ExceptionGroup exceptions), tg)
  | r => (r, tg)
  end.

End TaskGroups.

(** ** The socket handle *)

Module Socket.

(** Modelled from the spec: [BaseSocket] ([hyperio/backends/base.py]) is not
    among the sources.  The handle is "an open bidirectional communication
    endpoint"; a read "returns whatever is immediately available (0 bytes
    signals peer closed write side)", and a write may accept fewer bytes
    than offered.  [rx] holds the incoming stream as the transport
    fragments it, one element per physical delivery; [tx_accepts] is the
    schedule of how many bytes each successive write accepts (when it is
    used up a write accepts all it is offered); [wire] is what the handle
    has accepted so far. *)
Record socket : Type := mk_socket {
  rx : list bytes;
  tx_accepts : list nat;
  wire : bytes
}.

Definition incoming (chunks : list bytes) : socket :=
  {| rx := chunks; tx_accepts := []; wire := [] |}.

Definition outgoing (accepts : list nat) : socket :=
  {| rx := []; tx_accepts := accepts; wire := [] |}.

(** The whole incoming stream, fragmentation forgotten. *)
Definition pending (s : socket) : bytes := concat (rx s).

(** [sock.recv(size, flags)]: at most [size] bytes of the delivery at the
    head; with [MSG_PEEK] nothing is consumed.  No delivery left: the peer
    has closed, the read yields zero bytes. *)
Definition recv (size : nat) (peek : bool) (s : socket) : bytes * socket :=
  match rx s with
  | [] => ([], s)
  | c :: rest =>
      let data := firstn size c in
      if peek then (data, s)
      else (data,
            {| rx := match skipn size c with [] => rest | r => r :: rest end;
               tx_accepts := tx_accepts s;
               wire := wire s |})
  end.

(** A buffer with [data] stored from position [pos]. *)
Definition write_at (buf : bytes) (pos : nat) (data : bytes) : bytes :=
  firstn pos buf ++ data ++ skipn (pos + length data) buf.

(** [sock.recv_into(view, nbytes)], [view] being [buf] from [pos] on:
    stores what was read and returns how many bytes that was. *)
Definition recv_into (buf : bytes) (pos nbytes : nat) (s : socket)
  : nat * bytes * socket :=
  let (data, s') := recv nbytes false s in
  (length data, write_at buf pos data, s').

(** [sock.send(data)]: the handle accepts a prefix of [data] and returns
    its length. *)
Definition send (data : bytes) (s : socket) : nat * socket :=
  match tx_accepts s with
  | [] => (length data,
           {| rx := rx s; tx_accepts := []; wire := wire s ++ data |})
  | k :: ks =>
      let n := Nat.min k (length data) in
      (n, {| rx := rx s; tx_accepts := ks; wire := wire s ++ firstn n data |})
  end.

End Socket.

(** ** Socket streams *)

Module SocketStream.
Import Socket.

(** [SocketStream.receive_exactly]
<<
    buf = bytearray(nbytes); view = memoryview(buf)
    while nbytes > 0:
        bytes_read = await self._socket.recv_into(view, nbytes)
        view = view[bytes_read:]
        nbytes -= bytes_read
    return bytes(buf)
>>
    [pos] is where [view] starts inside [buf]. *)
Fixpoint receive_exactly_loop (fuel : nat) (buf : bytes) (pos nbytes : nat)
    (s : socket) : outcome bytes * socket :=
  if nbytes =? 0 then (Returned buf, s)
  else match fuel with
       | 0 => (Diverged, s)
       | S fuel' =>
           let '(bytes_read, buf', s') := recv_into buf pos nbytes s in
           receive_exactly_loop fuel' buf' (pos + bytes_read)
                                (nbytes - bytes_read) s'
       end.

Definition receive_exactly (fuel : nat) (nbytes : nat) (s : socket)
  : outcome bytes * socket :=
  receive_exactly_loop fuel (repeat x00 nbytes) 0 nbytes s.

(** [SocketStream.receive_until]
<<
    offset = 0; delimiter_size = len(delimiter); buf = b''
    while len(buf) < max_size:
        read_size = max_size - len(buf)
        data = await self._socket.recv(read_size, flags=socket.MSG_PEEK)
        buf += data
        index = buf.find(delimiter, offset)
        if index >= 0:
            await self._socket.recv(index + 1)
            return buf[:index]
        else:
            await self._socket.recv(len(data))
            offset += len(data) - delimiter_size + 1
    raise DelimiterNotFound(buf, False)
>> *)
Fixpoint receive_until_loop (fuel : nat) (delimiter : bytes) (max_size : nat)
    (offset : Z) (buf : bytes) (s : socket) : outcome bytes * socket :=
  if length buf <? max_size then
    match fuel with
    | 0 => (Diverged, s)
    | S fuel' =>
        let read_size := max_size - length buf in
        let (data, s1) := recv read_size true s in
        let buf' := buf ++ data in
        let index := find buf' delimiter offset in
        if (0 <=? index)%Z then
          let (_, s2) := recv (Z.to_nat (index + 1)) false s1 in
          (Returned (firstn (Z.to_nat index) buf'), s2)
        else
          let (_, s2) := recv (length data) false s1 in
          receive_until_loop fuel' delimiter max_size
            (offset + Z.of_nat (length data)
                    - Z.of_nat (length delimiter) + 1)%Z
            buf' s2
    end
  else (Raised (DelimiterNotFound buf false), s).

Definition receive_until (fuel : nat) (delimiter : bytes) (max_size : nat)
    (s : socket) : outcome bytes * socket :=
  receive_until_loop fuel delimiter max_size 0%Z [] s.

(** [SocketStream.send_all]
<<
    to_send = len(data)
    while to_send > 0:
        to_send -= await self._socket.send(data)
>> *)
Fixpoint send_all_loop (fuel : nat) (data : bytes) (to_send : Z) (s : socket)
  : outcome unit * socket :=
  if (0 <? to_send)%Z then
    match fuel with
    | 0 => (Diverged, s)
    | S fuel' =>
        let (sent, s') := send data s in
        send_all_loop fuel' data (to_send - Z.of_nat sent)%Z s'
    end
  else (Returned tt, s).

Definition send_all (fuel : nat) (data : bytes) (s : socket)
  : outcome unit * socket :=
  send_all_loop fuel data (Z.of_nat (length data)) s.

End SocketStream.

(** ** Endpoint factories *)

Module Endpoints.

Definition fd := nat.

(** What is done to socket handles, as the operating system sees it. *)
Inductive event : Type :=
| Bind (sock : fd)
| Connect (sock : fd)
| Listen (sock : fd)
| Accept (server sock : fd)
| StartTls (sock : fd)
| Chmod (path : string)
| Close (sock : fd).

(** The world outside: the next free descriptor, the events so far (the
    latest first), and which operations fail, with what. *)
Record world : Type := {
  next_fd : fd;
  log : list event;
  fault : event -> option exn
}.

(** The factories have no loops: a step returns or raises. *)
Inductive result (A : Type) : Type :=
| Ok (a : A)
| Err (e : exn).

Arguments Ok {A} a.
Arguments Err {A} e.

(** Computations over the world that return or raise. *)
Definition M (A : Type) : Type := world -> result A * world.

Definition ret {A} (a : A) : M A := fun w => (Ok a, w).

Definition bind {A B} (m : M A) (k : A -> M B) : M B :=
  fun w =>
    match m w with
    | (Ok a, w') => k a w'
    | (Err e, w') => (Err e, w')
    end.

Notation "x <- m ;; k" := (bind m (fun x => k))
  (at level 61, m at next level, right associativity).
Notation "m ;; k" := (bind m (fun _ => k))
  (at level 61, right associativity).

(** [try: body finally: final] *)
Definition try_finally {A} (body : M A) (final : M unit) : M A :=
  fun w =>
    let (r, w') := body w in
    match final w' with
    | (Ok _, w'') => (r, w'')
    | (Err e, w'') => (Err e, w'')
    end.

Definition record (e : event) (w : world) : world :=
  {| next_fd := next_fd w; log := e :: log w; fault := fault w |}.

(** An operation on a handle: it fails as the world says, or it is done. *)
Definition perform (e : event) : M unit :=
  fun w =>
    match fault w e with
    | Some err => (Err err, w)
    | None => (Ok tt, record e w)
    end.

(** [create_socket]: a fresh handle. *)
Definition create_socket : M fd :=
  fun w =>
    (Ok (next_fd w),
     {| next_fd := S (next_fd w); log := log w; fault := fault w |}).

(** [sock.close()] *)
Definition close (sock : fd) : M unit :=
  fun w => (Ok tt, record (Close sock) w).

(** [sock.accept()]: a fresh handle for the accepted connection. *)
Definition sock_accept (server : fd) : M fd :=
  fun w =>
    match fault w (Accept server (next_fd w)) with
    | Some err => (Err err, w)
    | None =>
        (Ok (next_fd w),
         {| next_fd := S (next_fd w);
            log := Accept server (next_fd w) :: log w;
            fault := fault w |})
    end.

(** What a helper hands to its block. *)
Inductive endpoint : Type :=
| SocketStream (sock : fd)
| SocketStreamServer (sock : fd) (ssl_context : option nat)
| DatagramSocket (sock : fd).

(** The block under the [async with], acting on the world. *)
Definition block := endpoint -> world -> block_exit * world.

(** [await yield_(value)] inside an [asynccontextmanager]: the block runs;
    an exception it raises is raised at the [yield_]. *)
Definition yield_ (body : block) (value : endpoint) : M unit :=
  fun w =>
    match body value w with
    | (Failed e, w') => (Err e, w')
    | (Completed, w') | (EarlyReturn, w') => (Ok tt, w')
    end.

(** [SocketStream.start_tls] *)
Definition start_tls (sock : fd) : M unit := perform (StartTls sock).

(** The [tls] argument of [connect_tcp]: a flag or a context. *)
Inductive tls_option : Type :=
| TlsFlag (on : bool)
| TlsContext (context : nat).

(** [SocketStreamServer.accept]
<<
    sock, addr = await self._socket.accept()
    stream = SocketStream(sock)
    if self._ssl_context:
        await stream.start_tls(self._ssl_context)
    await yield_(stream)
    sock.close()
>> *)
Definition accept (self_socket : fd) (self_ssl_context : option nat)
    (body : block) : M unit :=
  sock <- sock_accept self_socket ;;
  (match self_ssl_context with
   | Some _ => start_tls sock
   | None => ret tt
   end) ;;
  yield_ body (SocketStream sock) ;;
  close sock.

(** [connect_tcp]
<<
    sock = create_socket()
    try:
        if bind_host is not None and bind_port is not None:
            await sock.bind((bind_host, bind_port))
        await sock.connect((address, port))
        stream = SocketStream(sock, server_hostname=address)
        if isinstance(tls, SSLContext):
            await stream.start_tls(tls)
        elif tls:
            await stream.start_tls()
        await yield_(stream)
    finally:
        sock.close()
>> *)
Definition connect_tcp (address : string) (port : nat) (tls : tls_option)
    (bind_host : option string) (bind_port : option nat) (body : block)
  : M unit :=
  sock <- create_socket ;;
  try_finally
    ((match bind_host, bind_port with
      | Some _, Some _ => perform (Bind sock)
      | _, _ => ret tt
      end) ;;
     perform (Connect sock) ;;
     (match tls with
      | TlsContext _ => start_tls sock
      | TlsFlag true => start_tls sock
      | TlsFlag false => ret tt
      end) ;;
     yield_ body (SocketStream sock))
    (close sock).

(** [connect_unix]
<<
    sock = create_socket(socket.AF_UNIX)
    try:
        await sock.connect(path)
        await yield_(SocketStream(sock))
    finally:
        sock.close()
>> *)
Definition connect_unix (path : string) (body : block) : M unit :=
  sock <- create_socket ;;
  try_finally
    (perform (Connect sock) ;;
     yield_ body (SocketStream sock))
    (close sock).

(** [create_tcp_server]
<<
    sock = create_socket()
    try:
        await sock.bind((interface, port))
        sock.listen()
        await yield_(SocketStreamServer(sock, ssl_context))
    finally:
        sock.close()
>> *)
Definition create_tcp_server (port : nat) (interface : option string)
    (ssl_context : option nat) (body : block) : M unit :=
  sock <- create_socket ;;
  try_finally
    (perform (Bind sock) ;;
     perform (Listen sock) ;;
     yield_ body (SocketStreamServer sock ssl_context))
    (close sock).

(** [create_unix_server]
<<
    sock = create_socket(socket.AF_UNIX)
    try:
        await sock.bind(path)
        if mode is not None:
            os.chmod(path, mode)
        sock.listen()
        await yield_(SocketStreamServer(sock, None))
    finally:
        sock.close()
>> *)
Definition create_unix_server (path : string) (mode : option nat)
    (body : block) : M unit :=
  sock <- create_socket ;;
  try_finally
    (perform (Bind sock) ;;
     (match mode with
      | Some _ => perform (Chmod path)
      | None => ret tt
      end) ;;
     perform (Listen sock) ;;
     yield_ body (SocketStreamServer sock None))
    (close sock).

(** [create_udp_socket]
<<
    sock = create_socket(type=socket.SOCK_DGRAM)
    try:
        if bind_port is not None:
            await sock.bind((bind_host, bind_port))
        if target_host is not None and target_port is not None:
            await sock.connect((target_host, target_port))
        await yield_(DatagramSocket(sock))
    finally:
        sock.close()
>> *)
Definition create_udp_socket (bind_host : option string)
    (bind_port : option nat) (target_host : option string)
    (target_port : option nat) (body : block) : M unit :=
  sock <- create_socket ;;
  try_finally
    ((match bind_port with
      | Some _ => perform (Bind sock)
      | None => ret tt
      end) ;;
     (match target_host, target_port with
      | Some _, Some _ => perform (Connect sock)
      | _, _ => ret tt
      end) ;;
     yield_ body (DatagramSocket sock))
    (close sock).

(** How many times [sock] has been closed. *)
Fixpoint closes (sock : fd) (events : list event) : nat :=
  match events with
  | [] => 0
  | Close sock' :: rest =>
      (if sock' =? sock then 1 else 0) + closes sock rest
  | _ :: rest => closes sock rest
  end.

(** A block that leaves the closing of handles to the helper. *)
Definition leaves_closing (body : block) : Prop :=
  forall value w sock,
    closes sock (log (snd (body value w))) = closes sock (log w).

End Endpoints.

(** ** Vocabulary of the statements *)

Section StreamVocabulary.
Import Socket SocketStream.

(** [sub] occurs in [buf] at index [i]. *)
Definition occurs_at (sub buf : bytes) (i : nat) : Prop :=
  i + length sub <= length buf /\ firstn (length sub) (skipn i buf) = sub.

(** The offset rule of one round that finds nothing: the peeked bytes are
    consumed and the offset moves by their number, less the delimiter's
    length, plus one. *)
Definition offset_advances (delimiter : bytes) (max_size : nat) : Prop :=
  forall fuel offset buf s,
    length buf < max_size ->
    let data := fst (recv (max_size - length buf) true s) in
    (find (buf ++ data) delimiter offset < 0)%Z ->
    receive_until_loop (S fuel) delimiter max_size offset buf s =
    receive_until_loop fuel delimiter max_size
      (offset + Z.of_nat (length data) - Z.of_nat (length delimiter) + 1)%Z
      (buf ++ data) (snd (recv (length data) false s)).

(** Every physical read delivers at least the delimiter's length less
    one: any read for a delimiter of one byte, a non-empty read for one of
    two bytes. *)
Definition reads_at_least (delimiter : bytes) (chunks : list bytes) : Prop :=
  Forall (fun c => length delimiter - 1 <= length c) chunks.

(** The fragmentation claim as the specification words it: the bytes
    before the first delimiter number at most [max_size], the reads are
    any non-empty fragmentation of the stream. *)
Definition fragmentation_claim_as_stated : Prop :=
  forall delimiter max_size stream p chunks,
    index_of delimiter stream = Some p ->
    p <= max_size ->
    concat chunks = stream ->
    Forall (fun c => c <> []) chunks ->
    exists fuel,
      fst (receive_until fuel delimiter max_size (incoming chunks)) =
      Returned (firstn p stream).

End StreamVocabulary.

Section GroupVocabulary.
Import TaskGroups.

(** The group a block starts from. *)
Definition fresh_group : TaskGroup := TaskGroup__init__ Trio.open_nursery.



(** The errors of the children the block has spawned, listed in the order
    of the spawns. *)
Definition errors_at_exit (block : TaskGroup -> block_exit * TaskGroup)
  : list exn :=
  Trio.errors_of (Trio.children (_nursery (snd (block fresh_group)))).

(** Errors raised by the code of a task, as opposed to the signals and
    aggregates of the scheduler. *)
Definition is_application_error (e : exn) : bool :=
  match e with
  | AppError _ | OSError _ | RuntimeError _ | TimeoutError _
  | DelimiterNotFound _ _ => true
  | Cancelled | TooSlowError _ | MultiError _ | ExceptionGroup _ => false
  end.

(** The [except trio.MultiError] clause of [create_task_group]. *)
Definition except_MultiError (r : outcome unit) : outcome unit :=
  match r with
  | Raised (MultiError exceptions) => Raised (ExceptionGroup exceptions)
  | r => r
  end.

(** A block that spawns two children, each of which fails; the child
    spawned second is the first to end. *)
Definition two_failing_children (tg : TaskGroup) : block_exit * TaskGroup :=
  let tg := snd (spawn tg {| Trio.task_name := None;
                             Trio.task_error := Some (AppError 1);
                             Trio.task_finished := 2 |}) in
  let tg := snd (spawn tg {| Trio.task_name := None;
                             Trio.task_error := Some (AppError 2);
                             Trio.task_finished := 1 |}) in
  (Completed, tg).

(** A block that spawns one failing child and is cancelled because of
    it. *)
Definition cancelled_by_child (tg : TaskGroup) : block_exit * TaskGroup :=
  let tg := snd (spawn tg {| Trio.task_name := None;
                             Trio.task_error := Some (AppError 7);
                             Trio.task_finished := 1 |}) in
  (Failed Cancelled, tg).


(** A block that raises before spawning anything. *)
Definition raising_group_block (tg : TaskGroup) : block_exit * TaskGroup :=
  (Failed (AppError 1), tg).

(** A block that spawns one failing child and then raises itself. *)
Definition raising_with_child (tg : TaskGroup) : block_exit * TaskGroup :=
  let tg := snd (spawn tg {| Trio.task_name := None;
                             Trio.task_error := Some (AppError 2);
                             Trio.task_finished := 1 |}) in
  (Failed (AppError 1), tg).

(** [await tg.spawn(t)] for each task of a list, in order: what each call
    did, and the group afterwards. *)
Fixpoint spawn_each (tg : TaskGroup) (ts : list Trio.task)
  : list (outcome unit) * TaskGroup :=
  match ts with
  | [] => ([], tg)
  | t :: ts' =>
      let (r, tg) := spawn tg t in
      let (rs, tg) := spawn_each tg ts' in
      (r :: rs, tg)
  end.

(** A block that spawns the given tasks and ends. *)
Definition spawning_block (ts : list Trio.task) (tg : TaskGroup)
  : block_exit * TaskGroup :=
  (Completed, snd (spawn_each tg ts)).

(** A child that completes. *)
Definition quiet_task : Trio.task :=
  {| Trio.task_name := None; Trio.task_error := None;
     Trio.task_finished := 0 |}.

End GroupVocabulary.

Section FactoryVocabulary.
Import Endpoints.

(** A computation that closes nothing. *)
Definition quiet {A} (m : M A) : Prop :=
  forall sock w, closes sock (log (snd (m w))) = closes sock (log w).

(** A world in which nothing fails, and a block that raises. *)
Definition calm_world : world :=
  {| next_fd := 4; log := []; fault := fun _ => None |}.

Definition raising_block : block :=
  fun _ w => (Failed (AppError 1), w).

(** A block that ends normally and touches nothing. *)
Definition passing_block : block :=
  fun _ w => (Completed, w).

(** A world in which only a connect is refused, and one in which only a
    bind is. *)
Definition connect_refusing_world : world :=
  {| next_fd := 4; log := [];
     fault := fun ev => match ev with
                        | Connect _ => Some (OSError 111)
                        | _ => None
                        end |}.

Definition bind_refusing_world : world :=
  {| next_fd := 4; log := [];
     fault := fun ev => match ev with
                        | Bind _ => Some (OSError 98)
                        | _ => None
                        end |}.

(** A world in which only the TLS upgrade fails. *)
Definition tls_refusing_world : world :=
  {| next_fd := 4; log := [];
     fault := fun ev => match ev with
                        | StartTls _ => Some (OSError 1)
                        | _ => None
                        end |}.

(** What the [async with] statement ends with, given how its block was
    left. *)
Definition exit_result (exit : block_exit) : result unit :=
  match exit with
  | Failed e => Err e
  | Completed | EarlyReturn => Ok tt
  end.

End FactoryVocabulary.

(** * Properties *)

(** ** Searching bytes *)

Section Search.
Import Socket SocketStream.

Lemma starts_with_occurs sub : forall buf,
  starts_with sub buf = true <-> occurs_at sub buf 0.
Proof.
  unfold occurs_at. induction sub as [|x sub IH]; intros [|y buf]; simpl.
  - split; auto.
  - split; auto with arith.
  - split; [discriminate | intros [H _]; lia].
  - rewrite andb_true_iff, IH. simpl. split.
    + intros [E [Hl Hf]]. apply byte_dec_bl in E. subst y.
      split; [lia | now rewrite Hf].
    + intros [Hl Hf]. injection Hf as -> Hf.
      repeat split; [now apply byte_dec_lb | lia | exact Hf].
Qed.

Lemma occurs_at_cons sub x buf q :
  occurs_at sub (x :: buf) (S q) <-> occurs_at sub buf q.
Proof. unfold occurs_at. simpl. intuition lia. Qed.

(** [index_of] returns the first occurrence, and [None] only when there
    is none. *)
Lemma index_of_spec sub : forall buf,
  match index_of sub buf with
  | Some p => occurs_at sub buf p /\ forall q, q < p -> ~ occurs_at sub buf q
  | None => forall q, ~ occurs_at sub buf q
  end.
Proof.
  induction buf as [|y buf IH]; simpl.
  - destruct (starts_with sub []) eqn:E.
    + split; [now apply starts_with_occurs | intros q Hq; lia].
    + intros q [Hl Hf]. simpl in Hl.
      assert (sub = []) by (destruct sub; simpl in *; [easy | lia]).
      subst sub. discriminate.
  - destruct (starts_with sub (y :: buf)) eqn:E.
    + split; [now apply starts_with_occurs | intros q Hq; lia].
    + destruct (index_of sub buf) as [p|]; simpl.
      * destruct IH as [Ho Hmin]. split; [now apply occurs_at_cons |].
        intros [|q] Hq Hoc.
        -- apply starts_with_occurs in Hoc. congruence.
        -- apply occurs_at_cons in Hoc. apply (Hmin q); [lia | exact Hoc].
      * intros [|q] Hoc.
        -- apply starts_with_occurs in Hoc. congruence.
        -- apply occurs_at_cons in Hoc. exact (IH q Hoc).
Qed.

Lemma index_of_first sub buf p :
  occurs_at sub buf p -> (forall q, q < p -> ~ occurs_at sub buf q) ->
  index_of sub buf = Some p.
Proof.
  intros Ho Hmin. pose proof (index_of_spec sub buf) as H.
  destruct (index_of sub buf) as [p'|].
  - destruct H as [Ho' Hmin']. f_equal.
    destruct (Nat.lt_trichotomy p' p) as [Hlt|[->|Hlt]]; [|reflexivity|].
    + exfalso. exact (Hmin p' Hlt Ho').
    + exfalso. exact (Hmin' p Hlt Ho).
  - exfalso. exact (H p Ho).
Qed.

Lemma occurs_at_skipn sub buf s i :
  s <= length buf ->
  (occurs_at sub (skipn s buf) i <-> occurs_at sub buf (s + i)).
Proof.
  intros Hs. unfold occurs_at.
  rewrite length_skipn, skipn_skipn, (Nat.add_comm i s). intuition lia.
Qed.

Lemma occurs_at_app_l sub buf rest i :
  occurs_at sub buf i -> occurs_at sub (buf ++ rest) i.
Proof.
  intros [Hl Hf]. split.
  - rewrite length_app. lia.
  - rewrite skipn_app, firstn_app, Hf, length_skipn.
    replace (length sub - (length buf - i)) with 0 by lia.
    simpl. apply app_nil_r.
Qed.

Lemma occurs_at_app_inv sub buf rest i :
  occurs_at sub (buf ++ rest) i -> i + length sub <= length buf ->
  occurs_at sub buf i.
Proof.
  intros [_ Hf] Hl. split; [exact Hl|].
  rewrite skipn_app, firstn_app, length_skipn in Hf.
  replace (length sub - (length buf - i)) with 0 in Hf by lia.
  simpl in Hf. now rewrite app_nil_r in Hf.
Qed.

(** [find] from a start at or before the first occurrence returns it. *)
Lemma find_first buf sub start p :
  occurs_at sub buf p -> (forall q, q < p -> ~ occurs_at sub buf q) ->
  (0 <= start <= Z.of_nat p)%Z ->
  find buf sub start = Z.of_nat p.
Proof.
  intros Ho Hmin Hs. unfold find.
  destruct (Z.ltb_spec start 0); [lia|].
  assert (Hp : p <= length buf) by (destruct Ho; lia).
  destruct (Z.ltb_spec (Z.of_nat (length buf)) start); [lia|].
  rewrite (@index_of_first sub _ (p - Z.to_nat start)).
  - lia.
  - apply occurs_at_skipn; [lia|].
    now replace (Z.to_nat start + (p - Z.to_nat start)) with p by lia.
  - intros q Hq Hoc. apply occurs_at_skipn in Hoc; [|lia].
    apply (Hmin (Z.to_nat start + q)); [lia | exact Hoc].
Qed.

(** [find] answers [-1] on a buffer without occurrence, whatever the
    start. *)
Lemma find_none buf sub start :
  (forall q, ~ occurs_at sub buf q) -> find buf sub start = (-1)%Z.
Proof.
  intros Hno. unfold find.
  set (start' := if (start <? 0)%Z then _ else _).
  destruct (Z.ltb_spec (Z.of_nat (length buf)) start'); [reflexivity|].
  pose proof (index_of_spec sub (skipn (Z.to_nat start') buf)) as Hspec.
  destruct (index_of sub (skipn (Z.to_nat start') buf)) as [i|];
    [|reflexivity].
  destruct Hspec as [Ho _]. apply occurs_at_skipn in Ho.
  - now apply Hno in Ho.
  - subst start'. destruct (start <? 0)%Z; lia.
Qed.

End Search.

(** ** receive_until *)

Section ReceiveUntil.
Import Socket SocketStream.

Lemma recv_peek n s c rest :
  rx s = c :: rest -> recv n true s = (firstn n c, s).
Proof. unfold recv. now intros ->. Qed.

Lemma recv_whole s c rest :
  rx s = c :: rest ->
  recv (length c) false s =
  (c, {| rx := rest; tx_accepts := tx_accepts s; wire := wire s |}).
Proof. unfold recv. intros ->. now rewrite firstn_all, skipn_all. Qed.

Lemma recv_closed n peek s : rx s = [] -> recv n peek s = ([], s).
Proof. unfold recv. now intros ->. Qed.

Lemma receive_until_loop_eq fuel delimiter max_size offset buf s :
  receive_until_loop fuel delimiter max_size offset buf s =
  if length buf <? max_size then
    match fuel with
    | 0 => (Diverged, s)
    | S fuel' =>
        let read_size := max_size - length buf in
        let (data, s1) := recv read_size true s in
        let buf' := buf ++ data in
        let index := find buf' delimiter offset in
        if (0 <=? index)%Z then
          let (_, s2) := recv (Z.to_nat (index + 1)) false s1 in
          (Returned (firstn (Z.to_nat index) buf'), s2)
        else
          let (_, s2) := recv (length data) false s1 in
          receive_until_loop fuel' delimiter max_size
            (offset + Z.of_nat (length data)
                    - Z.of_nat (length delimiter) + 1)%Z
            buf' s2
    end
  else (Raised (DelimiterNotFound buf false), s).
Proof. destruct fuel; reflexivity. Qed.

(** Once [max_size] bytes are buffered the loop is left, whatever the
    budget. *)
Lemma receive_until_loop_full fuel delimiter max_size offset buf s :
  max_size <= length buf ->
  receive_until_loop fuel delimiter max_size offset buf s =
  (Raised (DelimiterNotFound buf false), s).
Proof.
  intros H. rewrite receive_until_loop_eq.
  destruct (Nat.ltb_spec (length buf) max_size); [lia | reflexivity].
Qed.

Lemma offset_advances_holds delimiter max_size :
  offset_advances delimiter max_size.
Proof.
  intros fuel offset buf s Hlt data Hneg. subst data.
  rewrite (receive_until_loop_eq (S fuel)).
  destruct (Nat.ltb_spec (length buf) max_size); [|lia].
  cbv zeta.
  assert (Hs : snd (recv (max_size - length buf) true s) = s).
  { unfold recv. now destruct (rx s). }
  destruct (recv (max_size - length buf) true s) as [data s1].
  simpl in Hs, Hneg |- *. subst s1.
  destruct (Z.leb_spec 0 (find (buf ++ data) delimiter offset)); [lia|].
  now destruct (recv (length data) false s).
Qed.

Section Found.
Variables (delimiter : bytes) (max_size : nat) (stream : bytes) (p : nat).
Hypothesis delimiter_nonempty : 0 < length delimiter.
Hypothesis first : index_of delimiter stream = Some p.
Hypothesis fits : p + length delimiter <= max_size.

Let first_occurs : occurs_at delimiter stream p.
Proof. pose proof (index_of_spec delimiter stream) as H. rewrite first in H. apply H. Qed.

Let first_minimal : forall q, q < p -> ~ occurs_at delimiter stream q.
Proof. pose proof (index_of_spec delimiter stream) as H. rewrite first in H. apply H. Qed.

(** Loop invariant: [buf] is the part of the stream read so far, the
    first occurrence does not yet lie inside it, and the offset is at
    most the lowest index an occurrence can still have. *)
Lemma receive_until_loop_finds : forall chunks s buf offset fuel,
  rx s = chunks ->
  buf ++ concat chunks = stream ->
  length buf < p + length delimiter ->
  (0 <= offset <=
     Z.max 0 (Z.of_nat (length buf) - Z.of_nat (length delimiter) + 1))%Z ->
  Forall (fun c => length delimiter - 1 <= length c) chunks ->
  length chunks <= fuel ->
  fst (receive_until_loop fuel delimiter max_size offset buf s) =
  Returned (firstn p stream).
Proof.
  induction chunks as [|c rest IH]; intros s buf offset fuel Hrx Hs Hlen Hoff Hall Hfuel.
  - simpl in Hs. rewrite app_nil_r in Hs. subst buf.
    destruct first_occurs. lia.
  - destruct fuel as [|fuel]; [simpl in Hfuel; lia|].
    rewrite receive_until_loop_eq.
    destruct (Nat.ltb_spec (length buf) max_size); [|lia].
    cbv zeta. rewrite (recv_peek _ _ _ _ Hrx).
    set (data := firstn (max_size - length buf) c).
    assert (Hsplit : stream = (buf ++ data) ++ skipn (max_size - length buf) c ++ concat rest).
    { rewrite <- Hs. simpl. subst data.
      rewrite <- app_assoc. f_equal. rewrite app_assoc. f_equal.
      symmetry. apply firstn_skipn. }
    inversion Hall as [|c' rest' Hc Hrest]; subst c' rest'.
    destruct (Nat.le_gt_cases (p + length delimiter) (length (buf ++ data)))
      as [Hin|Hout].
    + (* the occurrence lies inside the bytes peeked so far *)
      assert (Ho : occurs_at delimiter (buf ++ data) p).
      { apply occurs_at_app_inv with (rest := skipn (max_size - length buf) c ++ concat rest); [|exact Hin].
        rewrite <- Hsplit. exact first_occurs. }
      assert (Hmin : forall q, q < p -> ~ occurs_at delimiter (buf ++ data) q).
      { intros q Hq Hoc. apply (first_minimal q Hq). rewrite Hsplit.
        now apply occurs_at_app_l. }
      rewrite (find_first _ _ offset _ Ho Hmin) by lia.
      destruct (Z.leb_spec 0 (Z.of_nat p)); [|lia].
      destruct (recv (Z.to_nat (Z.of_nat p + 1)) false s) as [x s2]. simpl.
      rewrite Nat2Z.id. rewrite Hsplit, (firstn_app p (buf ++ data)).
      replace (p - length (buf ++ data)) with 0 by lia.
      rewrite firstn_O, app_nil_r. reflexivity.
    + (* not yet: the whole delivery was peeked, and is consumed *)
      assert (Hno : forall q, ~ occurs_at delimiter (buf ++ data) q).
      { intros q Hoc. destruct (Nat.lt_ge_cases q p) as [Hq|Hq].
        - apply (first_minimal q Hq). rewrite Hsplit. now apply occurs_at_app_l.
        - destruct Hoc as [Hl _]. lia. }
      rewrite (find_none _ _ offset Hno). simpl (0 <=? -1)%Z. cbv iota.
      assert (Hdata : data = c).
      { unfold data. apply firstn_all2. rewrite length_app in Hout.
        unfold data in Hout. rewrite length_firstn in Hout. lia. }
      clearbody data. subst data. rewrite (recv_whole _ _ _ Hrx).
      apply IH.
      * reflexivity.
      * rewrite <- Hs. simpl. now rewrite app_assoc.
      * exact Hout.
      * rewrite length_app. lia.
      * exact Hrest.
      * simpl in Hfuel. lia.
Qed.

End Found.

Section NotFound.
Variables (delimiter : bytes) (max_size : nat) (stream : bytes).
Hypothesis absent : index_of delimiter (firstn max_size stream) = None.
Hypothesis enough : max_size <= length stream.

Let no_occurrence : forall buf rest q,
  buf ++ rest = stream -> length buf <= max_size ->
  ~ occurs_at delimiter buf q.
Proof.
  intros buf rest q Hs Hl Hoc.
  pose proof (index_of_spec delimiter (firstn max_size stream)) as H.
  rewrite absent in H. apply (H q).
  rewrite <- Hs, firstn_app.
  rewrite (firstn_all2 buf Hl). now apply occurs_at_app_l.
Qed.

Lemma receive_until_loop_gives_up : forall chunks s buf offset fuel,
  rx s = chunks ->
  buf ++ concat chunks = stream ->
  length buf <= max_size ->
  length chunks <= fuel ->
  fst (receive_until_loop fuel delimiter max_size offset buf s) =
  Raised (DelimiterNotFound (firstn max_size stream) false).
Proof.
  induction chunks as [|c rest IH]; intros s buf offset fuel Hrx Hs Hlen Hfuel.
  - simpl in Hs. rewrite app_nil_r in Hs. subst buf.
    rewrite receive_until_loop_full by lia. simpl.
    now rewrite firstn_all2 by lia.
  - destruct (Nat.le_gt_cases max_size (length buf)) as [Hfull|Hroom].
    + rewrite receive_until_loop_full by lia. simpl.
      rewrite <- Hs, firstn_app.
      replace (max_size - length buf) with 0 by lia.
      rewrite firstn_all2 by lia. simpl. now rewrite app_nil_r.
    + destruct fuel as [|fuel]; [simpl in Hfuel; lia|].
      rewrite receive_until_loop_eq.
      destruct (Nat.ltb_spec (length buf) max_size); [|lia].
      cbv zeta. rewrite (recv_peek _ _ _ _ Hrx).
      set (read_size := max_size - length buf).
      set (data := firstn read_size c).
      assert (Hsplit : (buf ++ data) ++ skipn read_size c ++ concat rest = stream).
      { rewrite <- Hs. simpl. subst data.
        rewrite <- app_assoc. f_equal. rewrite app_assoc. f_equal.
        apply firstn_skipn. }
      assert (Hlen' : length (buf ++ data) <= max_size).
      { rewrite length_app. unfold data. rewrite length_firstn. lia. }
      rewrite (find_none _ _ offset (fun q => no_occurrence _ _ q Hsplit Hlen')).
      simpl (0 <=? -1)%Z. cbv iota.
      destruct (Nat.le_gt_cases (length c) read_size) as [Hwhole|Hcut].
      * assert (Hdata : data = c) by (unfold data; now apply firstn_all2).
        clearbody data. subst data. rewrite (recv_whole _ _ _ Hrx).
        apply IH; [reflexivity | | exact Hlen' | simpl in Hfuel; lia].
        rewrite <- Hs. simpl. now rewrite app_assoc.
      * destruct (recv (length data) false s) as [x s2].
        rewrite receive_until_loop_full.
        -- simpl. rewrite <- Hsplit, firstn_app.
           assert (length (buf ++ data) = max_size).
           { rewrite length_app. unfold data. rewrite length_firstn. lia. }
           rewrite firstn_all2 by lia.
           replace (max_size - length (buf ++ data)) with 0 by lia.
           simpl. now rewrite app_nil_r.
        -- rewrite length_app. unfold data. rewrite length_firstn. lia.
Qed.

End NotFound.

(** The loop has no test for a read of zero bytes.  On a stream that ends
    before [max_size] bytes without holding the delimiter, every round
    finds nothing, the buffer stays shorter than [max_size], and the loop
    is never left: every budget runs out. *)
Lemma receive_until_loop_starves : forall fuel delimiter max_size offset buf s,
  index_of delimiter (buf ++ pending s) = None ->
  length (buf ++ pending s) < max_size ->
  fst (receive_until_loop fuel delimiter max_size offset buf s) = Diverged.
Proof.
  induction fuel as [|fuel IH]; intros delimiter max_size offset buf s Habsent Hshort;
    rewrite receive_until_loop_eq; rewrite length_app in Hshort;
    destruct (Nat.ltb_spec (length buf) max_size); try lia; [reflexivity|].
  cbv zeta.
  pose proof (index_of_spec delimiter (buf ++ pending s)) as Hno.
  rewrite Habsent in Hno. unfold pending in *.
  destruct (rx s) as [|c rest] eqn:Hrx.
  - rewrite (recv_closed _ true s Hrx).
    rewrite (find_none _ _ offset)
      by (intros q Hoc; apply (Hno q); simpl; exact Hoc).
    change (0 <=? -1)%Z with false. cbv iota.
    rewrite (recv_closed _ false s Hrx).
    apply IH; unfold pending; rewrite Hrx; simpl; rewrite !app_nil_r.
    + simpl in Habsent. now rewrite app_nil_r in Habsent.
    + lia.
  - simpl in Hshort, Habsent, Hno. rewrite length_app in Hshort.
    rewrite (recv_peek _ _ _ _ Hrx).
    rewrite (firstn_all2 c) by lia.
    rewrite (find_none _ _ offset)
      by (intros q Hoc; apply (Hno q); rewrite app_assoc;
          now apply occurs_at_app_l).
    change (0 <=? -1)%Z with false. cbv iota.
    rewrite (recv_whole _ _ _ Hrx).
    apply IH; unfold pending; cbn [rx]; rewrite <- app_assoc.
    + exact Habsent.
    + rewrite !length_app. lia.
Qed.

End ReceiveUntil.

Section ReceiveUntilClaims.
Import Socket SocketStream.

(** C5, as stated, fails: with [max_size = 3] and the stream ["abc\n"] the
    three bytes before the newline number at most [max_size], yet the call
    raises [DelimiterNotFound]; [max_size] bounds all the bytes read, the
    delimiter included. *)
Lemma fragmentation_claim_as_stated_fails : ~ fragmentation_claim_as_stated.
Proof.
  intros claim.
  destruct (claim LF 3 (b "abc" ++ LF) 3 [b "abc" ++ LF]) as [fuel H].
  - reflexivity.
  - lia.
  - reflexivity.
  - repeat constructor; discriminate.
  - destruct fuel as [|[|fuel]]; discriminate H.
Qed.

(** C5 (amended).  For a non-empty delimiter whose first occurrence in the
    incoming stream ends within [max_size] bytes, [receive_until] returns
    the bytes strictly before that occurrence for every fragmentation of
    the stream into physical reads of at least the delimiter's length
    less one; a round that finds nothing moves the search offset by the
    peeked length, less the delimiter's length, plus one. *)
Theorem receive_until_fragmentation_independent :
  forall delimiter max_size stream p chunks fuel,
    0 < length delimiter ->
    index_of delimiter stream = Some p ->
    p + length delimiter <= max_size ->
    concat chunks = stream ->
    reads_at_least delimiter chunks ->
    length chunks <= fuel ->
    fst (receive_until fuel delimiter max_size (incoming chunks)) =
      Returned (firstn p stream)
    /\ offset_advances delimiter max_size.
Proof.
  intros delimiter max_size stream p chunks fuel Hd Hfirst Hfits Hcat Hreads Hfuel.
  split; [|apply offset_advances_holds].
  unfold receive_until.
  apply receive_until_loop_finds with (chunks := chunks);
    solve [assumption | reflexivity | simpl; lia].
Qed.

Lemma receive_until_fragmentation_independent_witness :
  fst (receive_until 3 CRLF 10
         (incoming [b "a"; b "b" ++ [x0d]; [x0a] ++ b "cd"])) =
    Returned (firstn 2 (b "ab" ++ CRLF ++ b "cd"))
  /\ offset_advances CRLF 10.
Proof.
  apply (receive_until_fragmentation_independent
           CRLF 10 (b "ab" ++ CRLF ++ b "cd") 2
           [b "a"; b "b" ++ [x0d]; [x0a] ++ b "cd"] 3).
  - simpl. lia.
  - reflexivity.
  - simpl. lia.
  - reflexivity.
  - repeat constructor; simpl; lia.
  - simpl. lia.
Defined.

(** The part of C5 that the amended statement leaves out: a delimiter of
    three bytes or more behind a read shorter than its length less one.
    The offset becomes negative, [find] counts a negative start from the
    end of the buffer, and the occurrence is skipped: the same stream
    gives ["a"] in one read and [DelimiterNotFound] in two. *)
Lemma receive_until_negative_offset_skips :
  fst (receive_until 5 (b "XYZ") 6 (incoming [b "aXYZbc"])) =
    Returned (b "a")
  /\ fst (receive_until 5 (b "XYZ") 6 (incoming [b "a"; b "XYZbc"])) =
    Raised (DelimiterNotFound (b "aXYZbc") false).
Proof. split; reflexivity. Qed.

(** C6 at an early close.  The delimiter is a newline, [max_size] is 5;
    three bytes arrive, none of them a newline, then the peer closes.  The
    delimiter does not occur within [max_size] bytes of the stream, yet
    the call raises nothing: each further read yields zero bytes, the
    buffer stays at three bytes, and for every budget the loop is still
    reading. *)
Theorem receive_until_spins_after_close :
  index_of LF (firstn 5 (concat [b "abc"])) = None
  /\ forall fuel,
       fst (receive_until fuel LF 5 (incoming [b "abc"])) = Diverged.
Proof.
  split; [reflexivity|].
  intros fuel. unfold receive_until.
  apply receive_until_loop_starves; [reflexivity | simpl; lia].
Qed.

(** X28.  When the incoming stream supplies at least [max_size] bytes and
    the delimiter does not occur within the first [max_size] of them,
    [receive_until] raises [DelimiterNotFound] carrying the bytes
    accumulated so far, which are the first [max_size] bytes of the
    stream, whatever the fragmentation. *)
Theorem receive_until_delimiter_not_found :
  forall delimiter max_size chunks fuel,
    index_of delimiter (firstn max_size (concat chunks)) = None ->
    max_size <= length (concat chunks) ->
    length chunks <= fuel ->
    exists partial,
      fst (receive_until fuel delimiter max_size (incoming chunks)) =
        Raised (DelimiterNotFound partial false)
      /\ partial = firstn max_size (concat chunks)
      /\ 0 <= length partial <= max_size.
Proof.
  intros delimiter max_size chunks fuel Habsent Henough Hfuel.
  exists (firstn max_size (concat chunks)). split; [|split].
  - unfold receive_until.
    apply receive_until_loop_gives_up with (chunks := chunks);
      solve [assumption | reflexivity | simpl; lia].
  - reflexivity.
  - rewrite length_firstn. lia.
Qed.

Lemma receive_until_delimiter_not_found_witness :
  exists partial,
    fst (receive_until 2 LF 5 (incoming [b "ab"; b "cdef"])) =
      Raised (DelimiterNotFound partial false)
    /\ partial = firstn 5 (concat [b "ab"; b "cdef"])
    /\ 0 <= length partial <= 5.
Proof.
  apply (receive_until_delimiter_not_found LF 5 [b "ab"; b "cdef"] 2).
  - reflexivity.
  - simpl. lia.
  - simpl. lia.
Defined.

(** C2 at a two-byte delimiter.  The stream is ["ab\r\ncd"], delivered in
    one read; the delimiter ["\r\n"] ends at byte 4 of 10 allowed.  The
    call returns ["ab"], but consumes [index + 1 = 3] bytes: the line
    feed of the delimiter is left in the socket, in front of ["cd"]. *)
Theorem receive_until_leaves_delimiter_tail :
  receive_until 1 CRLF 10 (incoming [b "ab" ++ CRLF ++ b "cd"]) =
    (Returned (b "ab"), incoming [LF ++ b "cd"])
  /\ pending (incoming [LF ++ b "cd"]) <> b "cd".
Proof. split; [reflexivity | discriminate]. Qed.

(** The same count in a later round: [index] is an index into the
    accumulated buffer, while the bytes of the earlier rounds are already
    consumed.  With ["ab"] then ["c\nde"] the call returns ["abc"] and
    consumes ["de"] as well. *)
Lemma receive_until_consumes_past_delimiter :
  receive_until 2 LF 10 (incoming [b "ab"; b "c" ++ LF ++ b "de"]) =
    (Returned (b "abc"), incoming []).
Proof. reflexivity. Qed.

End ReceiveUntilClaims.

(** ** receive_exactly *)

Section ReceiveExactly.
Import Socket SocketStream.

Lemma receive_exactly_loop_eq fuel buf pos nbytes s :
  receive_exactly_loop fuel buf pos nbytes s =
  if nbytes =? 0 then (Returned buf, s)
  else match fuel with
       | 0 => (Diverged, s)
       | S fuel' =>
           let '(bytes_read, buf', s') := recv_into buf pos nbytes s in
           receive_exactly_loop fuel' buf' (pos + bytes_read)
                                (nbytes - bytes_read) s'
       end.
Proof. destruct fuel; reflexivity. Qed.

(** A read never yields more than was asked for. *)
Lemma recv_length n peek s : length (fst (recv n peek s)) <= n.
Proof.
  unfold recv. destruct (rx s) as [|c rest]; simpl; [lia|].
  destruct peek; simpl; apply firstn_le_length.
Qed.

Lemma write_at_length buf pos data :
  pos + length data <= length buf ->
  length (write_at buf pos data) = length buf.
Proof.
  intros H. unfold write_at.
  rewrite !length_app, length_firstn, length_skipn. lia.
Qed.

(** The buffer keeps its length through the loop: whatever is returned
    has the length asked for. *)
Lemma receive_exactly_loop_length : forall fuel buf pos nbytes s r,
  pos + nbytes = length buf ->
  fst (receive_exactly_loop fuel buf pos nbytes s) = Returned r ->
  length r = length buf.
Proof.
  induction fuel as [|fuel IH]; intros buf pos nbytes s r Hpos Hret;
    rewrite receive_exactly_loop_eq in Hret;
    destruct (nbytes =? 0); simpl in Hret; try congruence.
  unfold recv_into in Hret.
  pose proof (recv_length nbytes false s) as Hle.
  destruct (recv nbytes false s) as [data s']. simpl in Hle.
  apply IH in Hret.
  - rewrite Hret. apply write_at_length. lia.
  - rewrite write_at_length; lia.
Qed.

(** X2.  Whatever [receive_exactly] returns has the length asked for. *)
Lemma receive_exactly_length fuel nbytes s r :
  fst (receive_exactly fuel nbytes s) = Returned r -> length r = nbytes.
Proof.
  intros H. apply receive_exactly_loop_length in H.
  - now rewrite repeat_length in H.
  - now rewrite repeat_length.
Qed.

Lemma receive_exactly_length_witness :
  length (b "abc") = 3.
Proof.
  apply (receive_exactly_length 2 3 (incoming [b "a"; b "bcd"]) (b "abc")).
  reflexivity.
Defined.

(** When the peer closes before [nbytes] bytes have come in, the loop
    neither returns nor raises: each further read yields zero bytes,
    [nbytes] stays positive, and every budget runs out. *)
Lemma receive_exactly_loop_starves : forall fuel buf pos nbytes s,
  length (pending s) < nbytes ->
  fst (receive_exactly_loop fuel buf pos nbytes s) = Diverged.
Proof.
  induction fuel as [|fuel IH]; intros buf pos nbytes s Hshort;
    rewrite receive_exactly_loop_eq;
    destruct (Nat.eqb_spec nbytes 0) as [->|Hpos]; try lia; [reflexivity|].
  unfold recv_into, recv, pending in *.
  destruct (rx s) as [|c rest] eqn:Hrx.
  - apply IH. unfold pending. rewrite Hrx. simpl. lia.
  - simpl in Hshort. rewrite length_app in Hshort.
    rewrite (firstn_all2 c) by lia. rewrite (skipn_all2 c) by lia.
    apply IH. unfold pending. simpl. lia.
Qed.

Lemma skipn_repeat (x : byte) : forall k n,
  skipn k (repeat x n) = repeat x (n - k).
Proof.
  induction k as [|k IH]; intros [|n]; simpl; auto.
Qed.

Lemma write_at_next got data n :
  length data <= n ->
  write_at (got ++ repeat x00 n) (length got) data =
  (got ++ data) ++ repeat x00 (n - length data).
Proof.
  intros Hle. unfold write_at.
  rewrite firstn_app, firstn_all, Nat.sub_diag, firstn_O, app_nil_r.
  rewrite skipn_app, skipn_all2 by lia.
  replace (length got + length data - length got) with (length data) by lia.
  rewrite skipn_repeat. simpl. now rewrite app_assoc.
Qed.

(** Loop invariant: the buffer is what was read so far, followed by the
    zero bytes still to be overwritten. *)
Lemma receive_exactly_loop_fills : forall chunks s got nbytes fuel,
  rx s = chunks ->
  nbytes <= length (concat chunks) ->
  length chunks <= fuel ->
  fst (receive_exactly_loop fuel (got ++ repeat x00 nbytes) (length got)
         nbytes s) =
    Returned (got ++ firstn nbytes (concat chunks))
  /\ pending (snd (receive_exactly_loop fuel (got ++ repeat x00 nbytes)
                     (length got) nbytes s)) =
     skipn nbytes (concat chunks).
Proof.
  induction chunks as [|c rest IH]; intros s got nbytes fuel Hrx Hn Hfuel;
    rewrite receive_exactly_loop_eq;
    destruct (Nat.eqb_spec nbytes 0) as [->|Hpos].
  - simpl. unfold pending. rewrite Hrx. now rewrite app_nil_r.
  - simpl in Hn. lia.
  - simpl fst. simpl snd. unfold pending. rewrite Hrx.
    now rewrite firstn_O, app_nil_r.
  - destruct fuel as [|fuel]; [simpl in Hfuel; lia|].
    unfold recv_into, recv. rewrite Hrx.
    simpl in Hn. rewrite length_app in Hn.
    destruct (Nat.le_gt_cases (length c) nbytes) as [Hwhole|Hcut].
    + rewrite (firstn_all2 c Hwhole), (skipn_all2 c Hwhole).
      rewrite (write_at_next got c nbytes Hwhole).
      replace (length got + length c) with (length (got ++ c))
        by now rewrite length_app.
      destruct (IH {| rx := rest; tx_accepts := tx_accepts s; wire := wire s |}
                   (got ++ c) (nbytes - length c) fuel) as [Hres Hrest];
        [reflexivity | lia | simpl in Hfuel; lia |].
      rewrite Hres, Hrest. simpl concat.
      rewrite firstn_app, (firstn_all2 c Hwhole), skipn_app,
        (skipn_all2 c Hwhole).
      split; [now rewrite app_assoc | reflexivity].
    + assert (Hlen : length (firstn nbytes c) = nbytes)
        by (rewrite length_firstn; lia).
      rewrite write_at_next by lia. rewrite Hlen, Nat.sub_diag.
      rewrite receive_exactly_loop_eq. simpl.
      assert (Hne : skipn nbytes c <> []).
      { intros E. apply skipn_all_iff in E. lia. }
      destruct (skipn nbytes c) as [|y r] eqn:Hskip; [congruence|].
      unfold pending. simpl.
      rewrite firstn_app, skipn_app, Hskip.
      replace (nbytes - length c) with 0 by lia.
      rewrite firstn_O, skipn_O, !app_nil_r. split; reflexivity.
Qed.

(** X1.  When the stream supplies [nbytes] bytes, [receive_exactly] returns
    exactly the first [nbytes] bytes of it, whatever the fragmentation,
    and leaves the rest in the socket. *)
Theorem receive_exactly_returns_prefix :
  forall nbytes chunks fuel,
    nbytes <= length (concat chunks) ->
    length chunks <= fuel ->
    fst (receive_exactly fuel nbytes (incoming chunks)) =
      Returned (firstn nbytes (concat chunks))
    /\ pending (snd (receive_exactly fuel nbytes (incoming chunks))) =
       skipn nbytes (concat chunks).
Proof.
  intros nbytes chunks fuel Hn Hfuel.
  exact (receive_exactly_loop_fills chunks (incoming chunks) [] nbytes fuel
           eq_refl Hn Hfuel).
Qed.

Lemma receive_exactly_returns_prefix_witness :
  fst (receive_exactly 2 3 (incoming [b "a"; b "bcd"])) =
    Returned (firstn 3 (concat [b "a"; b "bcd"]))
  /\ pending (snd (receive_exactly 2 3 (incoming [b "a"; b "bcd"]))) =
     skipn 3 (concat [b "a"; b "bcd"]).
Proof.
  apply (receive_exactly_returns_prefix 3 [b "a"; b "bcd"] 2); simpl; lia.
Defined.

(** C3 at an early close.  Two bytes are asked for, one arrives, then the
    peer closes.  The call does not fail: for every budget it is still
    reading. *)
Theorem receive_exactly_spins_after_close :
  forall fuel, fst (receive_exactly fuel 2 (incoming [b "a"])) = Diverged.
Proof.
  intros fuel. apply receive_exactly_loop_starves. simpl. lia.
Qed.

End ReceiveExactly.

(** ** send_all *)

Section SendAll.
Import Socket SocketStream.

Lemma send_all_loop_eq fuel data to_send s :
  send_all_loop fuel data to_send s =
  if (0 <? to_send)%Z then
    match fuel with
    | 0 => (Diverged, s)
    | S fuel' =>
        let (sent, s') := send data s in
        send_all_loop fuel' data (to_send - Z.of_nat sent)%Z s'
    end
  else (Returned tt, s).
Proof. destruct fuel; reflexivity. Qed.

(** A handle that takes the payload in one write receives it as it is. *)
Lemma send_all_in_one_write data :
  send_all 1 data (outgoing []) =
  (Returned tt, {| rx := []; tx_accepts := []; wire := data |}).
Proof.
  unfold send_all. rewrite send_all_loop_eq.
  destruct (Z.ltb_spec 0 (Z.of_nat (length data))) as [Hpos|Hz].
  - cbn [send outgoing tx_accepts rx wire app]. rewrite send_all_loop_eq.
    destruct (Z.ltb_spec 0 (Z.of_nat (length data) - Z.of_nat (length data)));
      [lia | reflexivity].
  - destruct data; [reflexivity | simpl in Hz; lia].
Qed.

(** Every write offers [data] from its first byte: a handle that accepts
    one byte per write receives the first byte, [to_send] times. *)
Lemma send_all_loop_one_byte_writes x rest : forall k fuel rxs w,
  k <= fuel ->
  send_all_loop fuel (x :: rest) (Z.of_nat k)
    {| rx := rxs; tx_accepts := repeat 1 k; wire := w |} =
  (Returned tt, {| rx := rxs; tx_accepts := []; wire := w ++ repeat x k |}).
Proof.
  induction k as [|k IH]; intros fuel rxs w Hfuel; rewrite send_all_loop_eq.
  - simpl. now rewrite app_nil_r.
  - destruct (Z.ltb_spec 0 (Z.of_nat (S k))); [|lia].
    destruct fuel as [|fuel]; [lia|].
    cbn [send tx_accepts repeat rx wire length Nat.min firstn].
    replace (Z.of_nat (S k) - Z.of_nat 1)%Z with (Z.of_nat k) by lia.
    rewrite IH by lia. now rewrite <- app_assoc.
Qed.

(** X11.  On a handle that accepts one byte per write, [send_all] of a non-empty
    payload hands over the payload's first byte, [len(data)] times. *)
Lemma send_all_one_byte_writes x rest fuel :
  S (length rest) <= fuel ->
  send_all fuel (x :: rest) (outgoing (repeat 1 (S (length rest)))) =
  (Returned tt,
   {| rx := []; tx_accepts := []; wire := repeat x (S (length rest)) |}).
Proof.
  intros H. unfold send_all, outgoing.
  exact (send_all_loop_one_byte_writes x rest (S (length rest)) fuel [] [] H).
Qed.

(** C1 at writes of one byte.  The payload is ["ab"]; the handle accepts
    one byte per write.  [send_all] returns after two writes, and the
    handle has accepted ["aa"]: two bytes, but not the payload. *)
Theorem send_all_repeats_first_byte :
  send_all 2 (b "ab") (outgoing [1; 1]) =
    (Returned tt, {| rx := []; tx_accepts := []; wire := b "aa" |})
  /\ b "aa" <> b "ab".
Proof. split; [reflexivity | discriminate]. Qed.

(** A later write may also accept more than is still owed: with a first
    write of one byte and a second that takes all it is offered, three
    bytes are accepted for a payload of two. *)
Lemma send_all_may_exceed_payload :
  send_all 2 (b "ab") (outgoing [1]) =
  (Returned tt, {| rx := []; tx_accepts := []; wire := b "aab" |}).
Proof. reflexivity. Qed.

End SendAll.

(** ** Awaitable wrappers, timeouts *)

Section Wrappers.
Import Awaitable.

(** The wrapper runs [func] once, on the arguments it was given, and the
    state it leaves is the state [func] leaves. *)
Lemma wrap_as_awaitable_runs_func St Args (func : callable St Args) args st :
  wrap_as_awaitable func args st =
  (match fst (func args st) with
   | Returned _ => Returned (PyAwaitable dummy_awaitable)
   | Raised e => Raised e
   | Diverged => Diverged
   end, snd (func args st)).
Proof.
  unfold wrap_as_awaitable. now destruct (func args st) as [[v|e|] st'].
Qed.

(** C10.  A cancel wrapped by [wrap_as_awaitable], as on the scope of
    [open_cancel_scope] and on a task group's scope: the call runs the
    scheduler's synchronous cancel once (the scope is cancelled when the
    call returns, awaited or not) and returns the shared
    [dummy_awaitable]; awaiting that suspends zero times. *)
Theorem wrapped_cancel_is_immediate :
  forall st,
    Trio.call_cancel
      {| Trio.state := st;
         Trio.cancel := wrap_as_awaitable Trio.CancelScope_cancel |} =
    (Returned (PyAwaitable dummy_awaitable),
     {| Trio.state :=
          {| Trio.cancel_called := true;
             Trio.cancel_calls := S (Trio.cancel_calls st) |};
        Trio.cancel := wrap_as_awaitable Trio.CancelScope_cancel |})
    /\ suspensions (DummyAwaitable__await__ dummy_awaitable) = 0
    /\ Trio.cancel (TaskGroups.cancel_scope
                      (TaskGroups.TaskGroup__init__ Trio.open_nursery)) =
       wrap_as_awaitable Trio.CancelScope_cancel
    /\ forall block,
         Timeouts.open_cancel_scope block =
         (let (exit, cs) :=
            block {| Trio.state := Trio.state Trio.new_cancel_scope;
                     Trio.cancel :=
                       wrap_as_awaitable Trio.CancelScope_cancel |} in
          (match exit with
           | Failed Cancelled =>
               if Trio.cancel_called (Trio.state cs) then Returned tt
               else Raised Cancelled
           | Failed e => Raised e
           | Completed | EarlyReturn => Returned tt
           end, cs)).
Proof. intros st. repeat split. Qed.

(** The handler of [fail_after] turns [TooSlowError] into [TimeoutError]
    and hands on the traceback, behind the frame that raises. *)
Lemma except_TooSlowError_translates A tb :
  @Timeouts.except_TooSlowError A (Raised (TooSlowError tb)) =
  Raised (TimeoutError (Timeouts.raise_in "fail_after" tb)).
Proof. reflexivity. Qed.

(** C9.  When the deadline of [fail_after] fires before the enclosed
    operation completes, the scheduler's [TooSlowError] becomes the one
    [TimeoutError] raised to the caller; the traceback of the
    [TooSlowError] is the tail of the new one; the operation's own result
    is not what the caller gets. *)
Theorem fail_after_raises_timeout :
  forall A seconds (op : Trio.operation A),
    seconds < Trio.duration op ->
    exists tb_slow,
      Trio.fail_after seconds op = Raised (TooSlowError tb_slow)
      /\ Timeouts.fail_after seconds op =
         Raised (TimeoutError (Timeouts.raise_in "fail_after" tb_slow))
      /\ (forall tb,
            @Timeouts.except_TooSlowError A (Raised (TooSlowError tb)) =
            Raised (TimeoutError ("fail_after"%string :: tb)))
      /\ forall a, Timeouts.fail_after seconds op <> Returned a.
Proof.
  intros A seconds op Hfires. exists Trio.fail_at_frames.
  unfold Timeouts.fail_after, Trio.fail_after.
  destruct (Nat.ltb_spec seconds (Trio.duration op)) as [_|Hle]; [|lia].
  repeat split. intros a. discriminate.
Qed.

Lemma fail_after_raises_timeout_witness :
  exists tb_slow,
    Trio.fail_after 10
      {| Trio.duration := 1000; Trio.completion := Returned tt |} =
      Raised (TooSlowError tb_slow)
    /\ Timeouts.fail_after 10
         {| Trio.duration := 1000; Trio.completion := Returned tt |} =
       Raised (TimeoutError (Timeouts.raise_in "fail_after" tb_slow))
    /\ (forall tb,
          @Timeouts.except_TooSlowError unit (Raised (TooSlowError tb)) =
          Raised (TimeoutError ("fail_after"%string :: tb)))
    /\ forall a,
         Timeouts.fail_after 10
           {| Trio.duration := 1000; Trio.completion := Returned tt |} <>
         Returned a.
Proof.
  apply (fail_after_raises_timeout unit 10
           {| Trio.duration := 1000; Trio.completion := Returned tt |}).
  simpl. lia.
Defined.

(** An operation that ends before the deadline is not touched. *)
Lemma fail_after_in_time A seconds (op : Trio.operation A) a :
  Trio.duration op <= seconds -> Trio.completion op = Returned a ->
  Timeouts.fail_after seconds op = Returned a.
Proof.
  intros Hin Hdone. unfold Timeouts.fail_after, Trio.fail_after.
  destruct (Nat.ltb_spec seconds (Trio.duration op)); [lia|].
  now rewrite Hdone.
Qed.

End Wrappers.

(** ** Task groups *)

Section Groups.
Import TaskGroups.

(** Sorting by the time of ending rearranges the tasks and loses none. *)
Lemma insert_by_finish_perm t : forall ts,
  Permutation (Trio.insert_by_finish t ts) (t :: ts).
Proof.
  induction ts as [|u ts IH]; simpl; [apply Permutation_refl|].
  destruct (Trio.task_finished t <=? Trio.task_finished u).
  - apply Permutation_refl.
  - eapply perm_trans; [apply perm_skip, IH | apply perm_swap].
Qed.

Lemma by_finish_perm : forall ts, Permutation (Trio.by_finish ts) ts.
Proof.
  induction ts as [|t ts IH]; simpl; [constructor|].
  eapply perm_trans; [apply insert_by_finish_perm | now apply perm_skip].
Qed.

Lemma errors_of_perm ts ts' :
  Permutation ts ts' -> Permutation (Trio.errors_of ts) (Trio.errors_of ts').
Proof.
  induction 1 as [|t l l' _ IH|t u l|l l' l'' _ IH1 _ IH2]; simpl.
  - constructor.
  - destruct (Trio.task_error t) as [[]|]; auto using perm_skip.
  - destruct (Trio.task_error t) as [[]|], (Trio.task_error u) as [[]|];
      auto using perm_swap, Permutation_refl.
  - eapply perm_trans; eassumption.
Qed.

(** What the nursery has collected at its exit is, up to order, the
    block's own error followed by the children's. *)
Lemma collected_errors body_error n :
  Permutation
    (Trio.errors_of
       (Trio.by_finish (Trio.body_task body_error n :: Trio.children n)))
    (Trio.errors_of [Trio.body_task body_error n]
     ++ Trio.errors_of (Trio.children n)).
Proof.
  eapply perm_trans; [apply errors_of_perm, by_finish_perm|].
  simpl. destruct body_error as [[]|]; apply Permutation_refl.
Qed.

(** [create_task_group], step by step: the block, the flag, the exit of
    the nursery, the [except] clause. *)
Lemma create_task_group_eq block :
  create_task_group block =
  let exit := fst (block fresh_group) in
  let tg := snd (block fresh_group) in
  let body_error := match exit with Failed e => Some e | _ => None end in
  let active := match exit with Failed _ => _active tg | _ => false end in
  (except_MultiError (Trio.nursery_exit body_error (_nursery tg)),
   {| _active := active; _nursery := Trio.close_nursery (_nursery tg) |}).
Proof.
  unfold create_task_group, fresh_group.
  destruct (block (TaskGroup__init__ Trio.open_nursery)) as [[| |e] tg];
    cbn [fst snd set_active _nursery _active];
    match goal with
    | |- context [Trio.nursery_exit ?be ?n] =>
        destruct (Trio.nursery_exit be n) as [[]|[]|]
    end; reflexivity.
Qed.




(** Two failing children, run: the group raises both errors together, the
    error of the child that ended first in front. *)
Lemma create_task_group_two_failures :
  fst (create_task_group two_failing_children) =
  Raised (ExceptionGroup [AppError 2; AppError 1]).
Proof. reflexivity. Qed.

(** One failing child and a block cancelled because of it, run: the
    child's error comes out as it is. *)
Lemma create_task_group_one_failure :
  fst (create_task_group cancelled_by_child) = Raised (AppError 7).
Proof. reflexivity. Qed.



(** After a block left by an exception the flag is still set, and it is
    the closed nursery that refuses the task. *)
Lemma spawn_after_failed_block :
  spawn (snd (create_task_group raising_group_block)) quiet_task =
  (Raised (RuntimeError Trio.closed_message),
   snd (create_task_group raising_group_block)).
Proof. reflexivity. Qed.

(** X16.  A block left by an exception skips [tg._active = False]: the group
    keeps the flag the block left. *)
Lemma create_task_group_failed_block_keeps_flag block e :
  fst (block fresh_group) = Failed e ->
  _active (snd (create_task_group block)) =
  _active (snd (block fresh_group)).
Proof.
  rewrite create_task_group_eq. cbv zeta. cbn [snd _active].
  now intros ->.
Qed.

Lemma create_task_group_failed_block_keeps_flag_witness :
  _active (snd (create_task_group raising_group_block)) =
  _active (snd (raising_group_block fresh_group)).
Proof.
  apply (create_task_group_failed_block_keeps_flag raising_group_block
           (AppError 1)).
  reflexivity.
Defined.

End Groups.

(** ** Endpoint factories *)

Section Factories.
Import Endpoints.

Lemma quiet_ret A (a : A) : quiet (ret a).
Proof. intros sock w. reflexivity. Qed.

Lemma quiet_bind A B (m : M A) (k : A -> M B) :
  quiet m -> (forall a, quiet (k a)) -> quiet (bind m k).
Proof.
  intros Hm Hk sock w. unfold bind. specialize (Hm sock w).
  destruct (m w) as [[a|e] w']; simpl in *.
  - now rewrite Hk.
  - exact Hm.
Qed.

Lemma quiet_perform e :
  (forall sock, e <> Close sock) -> quiet (perform e).
Proof.
  intros Hne sock w. unfold perform.
  destruct (fault w e); simpl; [reflexivity|].
  destruct e; try reflexivity. now destruct (Hne sock0).
Qed.

Lemma quiet_yield body value : leaves_closing body -> quiet (yield_ body value).
Proof.
  intros Hbody sock w. unfold yield_. specialize (Hbody value w sock).
  now destruct (body value w) as [[| |e] w'].
Qed.

Create HintDb quiet.
#[local] Hint Resolve quiet_ret quiet_bind quiet_yield : quiet.
#[local] Hint Extern 1 (quiet (perform _)) =>
  (apply quiet_perform; intros ?; discriminate) : quiet.
#[local] Hint Extern 1 (quiet (start_tls _)) =>
  (apply quiet_perform; intros ?; discriminate) : quiet.
#[local] Hint Extern 2 (quiet (match ?x with _ => _ end)) =>
  destruct x : quiet.

(** [try: body finally: sock.close()] closes [sock] once, however [body]
    ends, when [body] closes nothing itself. *)
Lemma try_finally_closes_once A (body : M A) sock :
  quiet body ->
  forall w, closes sock (log (snd (try_finally body (close sock) w))) =
            S (closes sock (log w)).
Proof.
  intros Hq w. unfold try_finally, close. specialize (Hq sock w).
  destruct (body w) as [r w']. simpl in *.
  now rewrite Nat.eqb_refl, Hq.
Qed.

(** The shape shared by the five factories: create the handle, then
    [try: ... finally: sock.close()]. *)
Lemma scoped_socket_closes_once (body : fd -> M unit) w :
  (forall sock, quiet (body sock)) ->
  closes (next_fd w)
    (log (snd (bind create_socket
                    (fun sock => try_finally (body sock) (close sock)) w))) =
  S (closes (next_fd w) (log w)).
Proof.
  intros Hq.
  exact (try_finally_closes_once unit (body (next_fd w)) (next_fd w)
           (Hq (next_fd w))
           {| next_fd := S (next_fd w); log := log w; fault := fault w |}).
Qed.

(** The five factories close the handle they created exactly once, on
    every way out of the block and on every failure before it. *)
Lemma connect_tcp_closes_once address port tls bind_host bind_port body w :
  leaves_closing body ->
  closes (next_fd w)
    (log (snd (connect_tcp address port tls bind_host bind_port body w))) =
  S (closes (next_fd w) (log w)).
Proof.
  intros Hbody. unfold connect_tcp.
  apply scoped_socket_closes_once. intros sock. auto 10 with quiet.
Qed.

Lemma connect_unix_closes_once path body w :
  leaves_closing body ->
  closes (next_fd w) (log (snd (connect_unix path body w))) =
  S (closes (next_fd w) (log w)).
Proof.
  intros Hbody. unfold connect_unix.
  apply scoped_socket_closes_once. intros sock. auto 10 with quiet.
Qed.

Lemma create_tcp_server_closes_once port interface ssl_context body w :
  leaves_closing body ->
  closes (next_fd w)
    (log (snd (create_tcp_server port interface ssl_context body w))) =
  S (closes (next_fd w) (log w)).
Proof.
  intros Hbody. unfold create_tcp_server.
  apply scoped_socket_closes_once. intros sock. auto 10 with quiet.
Qed.

Lemma create_unix_server_closes_once path mode body w :
  leaves_closing body ->
  closes (next_fd w) (log (snd (create_unix_server path mode body w))) =
  S (closes (next_fd w) (log w)).
Proof.
  intros Hbody. unfold create_unix_server.
  apply scoped_socket_closes_once. intros sock. auto 10 with quiet.
Qed.

Lemma create_udp_socket_closes_once bind_host bind_port target_host
    target_port body w :
  leaves_closing body ->
  closes (next_fd w)
    (log (snd (create_udp_socket bind_host bind_port target_host target_port
                 body w))) =
  S (closes (next_fd w) (log w)).
Proof.
  intros Hbody. unfold create_udp_socket.
  apply scoped_socket_closes_once. intros sock. auto 10 with quiet.
Qed.

(** X19.  Every factory closes the handle it created exactly once, whatever
    fails before the block and however the block is left. *)
Theorem factories_close_once :
  forall body w,
    leaves_closing body ->
    (forall address port tls bind_host bind_port,
       closes (next_fd w)
         (log (snd (connect_tcp address port tls bind_host bind_port
                      body w))) = S (closes (next_fd w) (log w)))
    /\ (forall path,
          closes (next_fd w) (log (snd (connect_unix path body w))) =
          S (closes (next_fd w) (log w)))
    /\ (forall port interface ssl_context,
          closes (next_fd w)
            (log (snd (create_tcp_server port interface ssl_context
                         body w))) = S (closes (next_fd w) (log w)))
    /\ (forall path mode,
          closes (next_fd w) (log (snd (create_unix_server path mode body w))) =
          S (closes (next_fd w) (log w)))
    /\ (forall bind_host bind_port target_host target_port,
          closes (next_fd w)
            (log (snd (create_udp_socket bind_host bind_port target_host
                         target_port body w))) =
          S (closes (next_fd w) (log w))).
Proof.
  intros body w Hbody. repeat split; intros.
  - now apply connect_tcp_closes_once.
  - now apply connect_unix_closes_once.
  - now apply create_tcp_server_closes_once.
  - now apply create_unix_server_closes_once.
  - now apply create_udp_socket_closes_once.
Qed.

Lemma factories_close_once_witness :
  (forall address port tls bind_host bind_port,
     closes (next_fd calm_world)
       (log (snd (connect_tcp address port tls bind_host bind_port
                    raising_block calm_world))) =
     S (closes (next_fd calm_world) (log calm_world)))
  /\ (forall path,
        closes (next_fd calm_world)
          (log (snd (connect_unix path raising_block calm_world))) =
        S (closes (next_fd calm_world) (log calm_world)))
  /\ (forall port interface ssl_context,
        closes (next_fd calm_world)
          (log (snd (create_tcp_server port interface ssl_context
                       raising_block calm_world))) =
        S (closes (next_fd calm_world) (log calm_world)))
  /\ (forall path mode,
        closes (next_fd calm_world)
          (log (snd (create_unix_server path mode raising_block calm_world))) =
        S (closes (next_fd calm_world) (log calm_world)))
  /\ (forall bind_host bind_port target_host target_port,
        closes (next_fd calm_world)
          (log (snd (create_udp_socket bind_host bind_port target_host
                       target_port raising_block calm_world))) =
        S (closes (next_fd calm_world) (log calm_world))).
Proof.
  apply (factories_close_once raising_block calm_world).
  intros value w sock. reflexivity.
Defined.

(** X23.  [accept] has no [finally]: when the block raises, the statement after
    the [yield_] is not reached, and nothing is closed. *)
Lemma accept_skips_close_when_block_fails self_socket ssl_context body w :
  leaves_closing body ->
  (forall value w', exists e, fst (body value w') = Failed e) ->
  forall sock,
    closes sock (log (snd (accept self_socket ssl_context body w))) =
    closes sock (log w).
Proof.
  intros Hbody Hfails sock.
  unfold accept, bind, sock_accept.
  destruct (fault w (Accept self_socket (next_fd w))); [reflexivity|].
  set (w1 := {| next_fd := S (next_fd w); log := _; fault := fault w |}).
  assert (Hq : forall m : M unit, quiet m ->
            closes sock
              (log (snd (let (r, w') := m w1 in
                         match r with
                         | Ok _ =>
                             match yield_ body (SocketStream (next_fd w)) w' with
                             | (Ok _, w'') => close (next_fd w) w''
                             | (Err e, w'') => (Err e, w'')
                             end
                         | Err e => (Err e, w')
                         end))) = closes sock (log w)).
  { intros m Hm. specialize (Hm sock w1).
    destruct (m w1) as [[[]|e] w2]; simpl in Hm; [|exact Hm].
    unfold yield_. specialize (Hbody (SocketStream (next_fd w)) w2 sock).
    destruct (Hfails (SocketStream (next_fd w)) w2) as [e He].
    destruct (body (SocketStream (next_fd w)) w2) as [exit w3].
    simpl in *. subst exit. simpl. now rewrite Hbody, Hm. }
  destruct ssl_context.
  - specialize (Hq (start_tls (next_fd w))).
    destruct (start_tls (next_fd w) w1) as [[[]|e] w2];
      apply Hq; auto with quiet.
  - apply (Hq (ret tt)). auto with quiet.
Qed.

(** X24.  When nothing fails, [accept] does close the accepted handle once. *)
Lemma accept_closes_after_normal_exit self_socket ssl_context body w :
  leaves_closing body ->
  (forall e, fault w e = None) ->
  (forall value w' e, fst (body value w') <> Failed e) ->
  (forall value w', fault (snd (body value w')) = fault w') ->
  closes (next_fd w) (log (snd (accept self_socket ssl_context body w))) =
  S (closes (next_fd w) (log w)).
Proof.
  intros Hbody Hok Hnormal Hfault.
  unfold accept, bind, sock_accept, start_tls, perform, ret.
  rewrite Hok.
  assert (Hy : forall w1, log w1 = Accept self_socket (next_fd w) :: log w
                 \/ log w1 = StartTls (next_fd w)
                               :: Accept self_socket (next_fd w) :: log w ->
            closes (next_fd w)
              (log (snd (match yield_ body (SocketStream (next_fd w)) w1 with
                         | (Ok _, w'') => close (next_fd w) w''
                         | (Err e, w'') => (Err e, w'')
                         end))) = S (closes (next_fd w) (log w))).
  { intros w1 Hlog. unfold yield_, close.
    specialize (Hbody (SocketStream (next_fd w)) w1 (next_fd w)).
    specialize (Hnormal (SocketStream (next_fd w)) w1).
    destruct (body (SocketStream (next_fd w)) w1) as [[| |e] w2];
      simpl in *; try (now destruct (Hnormal e));
      rewrite Nat.eqb_refl, Hbody; destruct Hlog as [-> | ->]; reflexivity. }
  destruct ssl_context; simpl.
  - rewrite Hok. apply Hy. right. reflexivity.
  - apply Hy. left. reflexivity.
Qed.

(** C4 at [accept] with a block that raises.  The accepted handle is
    descriptor 4; the error of the block comes out of [accept], and the
    handle has been closed zero times.  [connect_unix], which has the
    [finally], closes its handle once under the same block. *)
Theorem accept_leaks_handle_when_block_raises :
  accept 3 None raising_block calm_world =
    (Err (AppError 1),
     {| next_fd := 5; log := [Accept 3 4]; fault := fault calm_world |})
  /\ closes 4 (log (snd (accept 3 None raising_block calm_world))) = 0
  /\ closes 4
       (log (snd (connect_unix "/tmp/sock" raising_block calm_world))) = 1.
Proof. repeat split. Qed.

Lemma accept_skips_close_when_block_fails_witness :
  closes 4 (log (snd (accept 3 None raising_block calm_world))) =
  closes 4 (log calm_world).
Proof.
  refine (accept_skips_close_when_block_fails 3 None raising_block calm_world
            _ _ 4).
  - intros value w sock. reflexivity.
  - intros value w'. exists (AppError 1). reflexivity.
Defined.

Lemma accept_closes_after_normal_exit_witness :
  closes (next_fd calm_world)
    (log (snd (accept 3 (Some 0) passing_block calm_world))) =
  S (closes (next_fd calm_world) (log calm_world)).
Proof.
  apply (accept_closes_after_normal_exit 3 (Some 0) passing_block calm_world).
  - intros value w sock. reflexivity.
  - intros e. reflexivity.
  - intros value w' e. discriminate.
  - intros value w'. reflexivity.
Defined.

(** X25.  When the TLS upgrade inside [accept] fails, the error comes out, the
    block is not run, and the accepted handle is left open: the world
    holds the accept and nothing else. *)
Theorem accept_failed_upgrade_leaks :
  forall self_socket context body w e,
    fault w (Accept self_socket (next_fd w)) = None ->
    fault w (StartTls (next_fd w)) = Some e ->
    accept self_socket (Some context) body w =
    (Err e,
     {| next_fd := S (next_fd w);
        log := Accept self_socket (next_fd w) :: log w;
        fault := fault w |}).
Proof.
  intros self_socket context body w e Hacc Htls.
  unfold accept, bind, sock_accept, start_tls, perform.
  rewrite Hacc. cbn [fault]. now rewrite Htls.
Qed.

Lemma accept_failed_upgrade_leaks_witness :
  accept 3 (Some 0) passing_block tls_refusing_world =
  (Err (OSError 1),
   {| next_fd := S (next_fd tls_refusing_world);
      log := Accept 3 (next_fd tls_refusing_world) :: log tls_refusing_world;
      fault := fault tls_refusing_world |}).
Proof.
  apply (accept_failed_upgrade_leaks 3 0 passing_block tls_refusing_world
           (OSError 1)); reflexivity.
Defined.

Lemma try_finally_close_last A (body : M A) sock w :
  log (snd (try_finally body (close sock) w)) =
  Close sock :: log (snd (body w)).
Proof. unfold try_finally, close. now destruct (body w). Qed.

(** X20.  In each of the five factories the close of the handle is the last
    thing that happens, whatever failed and however the block was
    left. *)
Theorem factories_close_last :
  forall body w,
    (forall address port tls bind_host bind_port,
       exists before,
         log (snd (connect_tcp address port tls bind_host bind_port body w)) =
         Close (next_fd w) :: before)
    /\ (forall path,
          exists before,
            log (snd (connect_unix path body w)) =
            Close (next_fd w) :: before)
    /\ (forall port interface ssl_context,
          exists before,
            log (snd (create_tcp_server port interface ssl_context body w)) =
            Close (next_fd w) :: before)
    /\ (forall path mode,
          exists before,
            log (snd (create_unix_server path mode body w)) =
            Close (next_fd w) :: before)
    /\ (forall bind_host bind_port target_host target_port,
          exists before,
            log (snd (create_udp_socket bind_host bind_port target_host
                        target_port body w)) =
            Close (next_fd w) :: before).
Proof.
  intros body w. repeat split; intros; eexists;
    match goal with
    | |- log (snd (?f w)) = _ =>
        let g := eval red in f in change f with g
    end;
    unfold bind at 1; cbn [create_socket];
    apply try_finally_close_last.
Qed.

Lemma perform_ok e w :
  fault w e = None -> perform e w = (Ok tt, record e w).
Proof. unfold perform. now intros ->. Qed.

Lemma try_finally_bind_ok A B (m : M A) (k : A -> M B) final w a w' :
  m w = (Ok a, w') ->
  try_finally (bind m k) final w = try_finally (k a) final w'.
Proof. unfold try_finally, bind. now intros ->. Qed.

Lemma try_finally_bind_err A B (m : M A) (k k' : A -> M B) final w e w' :
  m w = (Err e, w') ->
  try_finally (bind m k) final w = try_finally (bind m k') final w
  /\ exists e', fst (try_finally (bind m k) final w) = Err e'.
Proof.
  unfold try_finally, bind. intros ->. split; [reflexivity|].
  destruct (final w') as [[u|e'] w'']; eexists; reflexivity.
Qed.

Lemma try_finally_yield body value sock w :
  try_finally (yield_ body value) (close sock) w =
  (exit_result (fst (body value w)),
   record (Close sock) (snd (body value w))).
Proof.
  unfold try_finally, yield_, close.
  now destruct (body value w) as [[| |e] w'].
Qed.

Ltac setup_step Hok :=
  erewrite try_finally_bind_ok
    by (first [ reflexivity
              | apply perform_ok; cbn [fault record]; apply Hok ]).

(** X21.  In a world where nothing fails, what a factory ends with is what its
    block ended with: an exception of the block comes out unchanged,
    completion and early return both end the statement normally; and
    after the block the factory does nothing but close the handle. *)
Theorem factories_return_block_outcome :
  forall body w,
    (forall ev, fault w ev = None) ->
    (forall address port tls bind_host bind_port,
       exists w1,
         connect_tcp address port tls bind_host bind_port body w =
         (exit_result (fst (body (SocketStream (next_fd w)) w1)),
          record (Close (next_fd w))
                 (snd (body (SocketStream (next_fd w)) w1))))
    /\ (forall path,
          exists w1,
            connect_unix path body w =
            (exit_result (fst (body (SocketStream (next_fd w)) w1)),
             record (Close (next_fd w))
                    (snd (body (SocketStream (next_fd w)) w1))))
    /\ (forall port interface ssl_context,
          exists w1,
            create_tcp_server port interface ssl_context body w =
            (exit_result
               (fst (body (SocketStreamServer (next_fd w) ssl_context) w1)),
             record (Close (next_fd w))
                    (snd (body (SocketStreamServer (next_fd w) ssl_context)
                               w1))))
    /\ (forall path mode,
          exists w1,
            create_unix_server path mode body w =
            (exit_result
               (fst (body (SocketStreamServer (next_fd w) None) w1)),
             record (Close (next_fd w))
                    (snd (body (SocketStreamServer (next_fd w) None) w1))))
    /\ (forall bind_host bind_port target_host target_port,
          exists w1,
            create_udp_socket bind_host bind_port target_host target_port
              body w =
            (exit_result (fst (body (DatagramSocket (next_fd w)) w1)),
             record (Close (next_fd w))
                    (snd (body (DatagramSocket (next_fd w)) w1)))).
Proof.
  intros body w Hok. repeat split; intros.
  - unfold connect_tcp, bind at 1. cbn [create_socket].
    destruct bind_host, bind_port, tls as [[|]|context];
      eexists; unfold start_tls; repeat setup_step Hok;
      apply try_finally_yield.
  - eexists. unfold connect_unix, bind at 1. cbn [create_socket].
    repeat setup_step Hok. apply try_finally_yield.
  - eexists. unfold create_tcp_server, bind at 1. cbn [create_socket].
    repeat setup_step Hok. apply try_finally_yield.
  - unfold create_unix_server, bind at 1. cbn [create_socket].
    destruct mode; eexists; repeat setup_step Hok; apply try_finally_yield.
  - unfold create_udp_socket, bind at 1. cbn [create_socket].
    destruct bind_port, target_host, target_port;
      eexists; repeat setup_step Hok; apply try_finally_yield.
Qed.

Lemma factories_return_block_outcome_witness :
  (forall address port tls bind_host bind_port,
     exists w1,
       connect_tcp address port tls bind_host bind_port raising_block
         calm_world =
       (exit_result
          (fst (raising_block (SocketStream (next_fd calm_world)) w1)),
        record (Close (next_fd calm_world))
               (snd (raising_block (SocketStream (next_fd calm_world)) w1))))
  /\ (forall path,
        exists w1,
          connect_unix path raising_block calm_world =
          (exit_result
             (fst (raising_block (SocketStream (next_fd calm_world)) w1)),
           record (Close (next_fd calm_world))
                  (snd (raising_block (SocketStream (next_fd calm_world))
                          w1))))
  /\ (forall port interface ssl_context,
        exists w1,
          create_tcp_server port interface ssl_context raising_block
            calm_world =
          (exit_result
             (fst (raising_block
                     (SocketStreamServer (next_fd calm_world) ssl_context)
                     w1)),
           record (Close (next_fd calm_world))
                  (snd (raising_block
                          (SocketStreamServer (next_fd calm_world)
                             ssl_context) w1))))
  /\ (forall path mode,
        exists w1,
          create_unix_server path mode raising_block calm_world =
          (exit_result
             (fst (raising_block
                     (SocketStreamServer (next_fd calm_world) None) w1)),
           record (Close (next_fd calm_world))
                  (snd (raising_block
                          (SocketStreamServer (next_fd calm_world) None)
                          w1))))
  /\ (forall bind_host bind_port target_host target_port,
        exists w1,
          create_udp_socket bind_host bind_port target_host target_port
            raising_block calm_world =
          (exit_result
             (fst (raising_block (DatagramSocket (next_fd calm_world)) w1)),
           record (Close (next_fd calm_world))
                  (snd (raising_block (DatagramSocket (next_fd calm_world))
                          w1)))).
Proof.
  apply (factories_return_block_outcome raising_block calm_world).
  intros ev. reflexivity.
Defined.

(** X22.  When the connect is refused, the factory raises that error, the
    block is never run, and the handle is closed.  So it is for
    [connect_unix], for [connect_tcp] without a local address (the world
    then holds the close and nothing else), for [connect_tcp] with a
    local address whose bind went through (the world holds the bind and
    the close), and for an unbound datagram socket with a target. *)
Theorem refused_connect_never_runs_block :
  forall body w e,
    fault w (Connect (next_fd w)) = Some e ->
    let closed :=
      {| next_fd := S (next_fd w);
         log := Close (next_fd w) :: log w;
         fault := fault w |} in
    (forall path, connect_unix path body w = (Err e, closed))
    /\ (forall address port tls bind_host bind_port,
          bind_host = None \/ bind_port = None ->
          connect_tcp address port tls bind_host bind_port body w =
          (Err e, closed))
    /\ (forall address port tls bind_host bind_port,
          fault w (Bind (next_fd w)) = None ->
          connect_tcp address port tls (Some bind_host) (Some bind_port)
            body w =
          (Err e,
           {| next_fd := S (next_fd w);
              log := Close (next_fd w) :: Bind (next_fd w) :: log w;
              fault := fault w |}))
    /\ (forall bind_host target_host target_port,
          create_udp_socket bind_host None (Some target_host)
            (Some target_port) body w = (Err e, closed)).
Proof.
  intros body w e Hc closed. subst closed.
  split; [|split; [|split]].
  - intros path.
    unfold connect_unix, bind, try_finally, create_socket, perform, close,
      record, ret.
    cbn [fault next_fd log]. now rewrite Hc.
  - intros address port tls bind_host bind_port Hnone.
    unfold connect_tcp, bind, try_finally, create_socket, perform, close,
      record, ret.
    cbn [fault next_fd log].
    destruct Hnone as [-> | ->]; [|destruct bind_host];
      cbn [fault next_fd log]; now rewrite Hc.
  - intros address port tls bind_host bind_port Hb.
    unfold connect_tcp, bind, try_finally, create_socket, perform, close,
      record, ret.
    cbn [fault next_fd log]. rewrite Hb.
    cbn [fault next_fd log]. now rewrite Hc.
  - intros bind_host target_host target_port.
    unfold create_udp_socket, bind, try_finally, create_socket, perform,
      close, record, ret.
    cbn [fault next_fd log]. now rewrite Hc.
Qed.

Lemma refused_connect_never_runs_block_witness :
  (forall path,
     connect_unix path passing_block connect_refusing_world =
     (Err (OSError 111),
      {| next_fd := S (next_fd connect_refusing_world);
         log := Close (next_fd connect_refusing_world)
                  :: log connect_refusing_world;
         fault := fault connect_refusing_world |}))
  /\ (forall address port tls bind_host bind_port,
        bind_host = None \/ bind_port = None ->
        connect_tcp address port tls bind_host bind_port passing_block
          connect_refusing_world =
        (Err (OSError 111),
         {| next_fd := S (next_fd connect_refusing_world);
            log := Close (next_fd connect_refusing_world)
                     :: log connect_refusing_world;
            fault := fault connect_refusing_world |}))
  /\ (forall address port tls bind_host bind_port,
        fault connect_refusing_world
          (Bind (next_fd connect_refusing_world)) = None ->
        connect_tcp address port tls (Some bind_host) (Some bind_port)
          passing_block connect_refusing_world =
        (Err (OSError 111),
         {| next_fd := S (next_fd connect_refusing_world);
            log := Close (next_fd connect_refusing_world)
                     :: Bind (next_fd connect_refusing_world)
                     :: log connect_refusing_world;
            fault := fault connect_refusing_world |}))
  /\ (forall bind_host target_host target_port,
        create_udp_socket bind_host None (Some target_host)
          (Some target_port) passing_block connect_refusing_world =
        (Err (OSError 111),
         {| next_fd := S (next_fd connect_refusing_world);
            log := Close (next_fd connect_refusing_world)
                     :: log connect_refusing_world;
            fault := fault connect_refusing_world |})).
Proof.
  apply (refused_connect_never_runs_block passing_block
           connect_refusing_world (OSError 111)).
  reflexivity.
Defined.

(** X27.  When the bind is refused, the factory raises that error, the
    block is never run, nothing else is tried (no connect, no listen, no
    chmod), and the handle is closed: the world holds the close and
    nothing else.  So it is for the two servers, for a datagram socket
    with a local port, and for [connect_tcp] with a local address. *)
Theorem refused_bind_never_runs_block :
  forall body w e,
    fault w (Bind (next_fd w)) = Some e ->
    let closed :=
      {| next_fd := S (next_fd w);
         log := Close (next_fd w) :: log w;
         fault := fault w |} in
    (forall port interface ssl_context,
       create_tcp_server port interface ssl_context body w =
       (Err e, closed))
    /\ (forall path mode,
          create_unix_server path mode body w = (Err e, closed))
    /\ (forall bind_host bind_port target_host target_port,
          create_udp_socket bind_host (Some bind_port) target_host
            target_port body w = (Err e, closed))
    /\ (forall address port tls bind_host bind_port,
          connect_tcp address port tls (Some bind_host) (Some bind_port)
            body w = (Err e, closed)).
Proof.
  intros body w e Hb closed. subst closed.
  repeat split; intros;
    unfold connect_tcp, create_tcp_server, create_unix_server,
      create_udp_socket, bind, try_finally, create_socket, perform, close,
      record, ret;
    cbn [fault next_fd log]; rewrite Hb; reflexivity.
Qed.

Lemma refused_bind_never_runs_block_witness :
  (forall port interface ssl_context,
     create_tcp_server port interface ssl_context passing_block
       bind_refusing_world =
     (Err (OSError 98),
      {| next_fd := S (next_fd bind_refusing_world);
         log := Close (next_fd bind_refusing_world)
                  :: log bind_refusing_world;
         fault := fault bind_refusing_world |}))
  /\ (forall path mode,
        create_unix_server path mode passing_block bind_refusing_world =
        (Err (OSError 98),
         {| next_fd := S (next_fd bind_refusing_world);
            log := Close (next_fd bind_refusing_world)
                     :: log bind_refusing_world;
            fault := fault bind_refusing_world |}))
  /\ (forall bind_host bind_port target_host target_port,
        create_udp_socket bind_host (Some bind_port) target_host
          target_port passing_block bind_refusing_world =
        (Err (OSError 98),
         {| next_fd := S (next_fd bind_refusing_world);
            log := Close (next_fd bind_refusing_world)
                     :: log bind_refusing_world;
            fault := fault bind_refusing_world |}))
  /\ (forall address port tls bind_host bind_port,
        connect_tcp address port tls (Some bind_host) (Some bind_port)
          passing_block bind_refusing_world =
        (Err (OSError 98),
         {| next_fd := S (next_fd bind_refusing_world);
            log := Close (next_fd bind_refusing_world)
                     :: log bind_refusing_world;
            fault := fault bind_refusing_world |})).
Proof.
  apply (refused_bind_never_runs_block passing_block bind_refusing_world
           (OSError 98)).
  reflexivity.
Defined.

End Factories.

(** ** Socket streams: what the loops guarantee on every stream *)

Section StreamBehaviour.
Import Socket SocketStream.

(** A read hands over a prefix of what is pending and leaves the rest. *)
Lemma recv_consumes n s :
  fst (recv n false s) ++ pending (snd (recv n false s)) = pending s.
Proof.
  unfold recv, pending. destruct (rx s) as [|c rest] eqn:Hrx;
    [simpl; now rewrite Hrx|].
  cbn [fst snd rx]. destruct (skipn n c) as [|y r] eqn:Hsk.
  - cbn [concat]. f_equal. rewrite <- (firstn_skipn n c) at 2.
    now rewrite Hsk, app_nil_r.
  - change (concat ((y :: r) :: rest)) with ((y :: r) ++ concat rest).
    cbn [concat]. now rewrite <- Hsk, app_assoc, firstn_skipn.
Qed.

(** A peek shows what the next read of that size returns, and consumes
    nothing. *)
Lemma recv_peek_same n s : recv n true s = (fst (recv n false s), s).
Proof. unfold recv. now destruct (rx s). Qed.

(** Reading as many bytes as a peek has shown is the read the peek
    announced. *)
Lemma recv_after_peek n s :
  recv (length (fst (recv n true s))) false s = recv n false s.
Proof.
  unfold recv. destruct (rx s) as [|c rest]; [reflexivity|]. simpl.
  rewrite length_firstn.
  destruct (Nat.le_gt_cases n (length c)) as [H|H].
  - now rewrite Nat.min_l.
  - rewrite Nat.min_r by lia.
    now rewrite firstn_all, skipn_all, (firstn_all2 c), (skipn_all2 c) by lia.
Qed.

Lemma recv_rx_length n peek s :
  length (rx (snd (recv n peek s))) <= length (rx s).
Proof.
  unfold recv. destruct (rx s) as [|c rest] eqn:E; simpl; [now rewrite E|].
  destruct peek; simpl; [now rewrite E|].
  destruct (skipn n c); simpl; lia.
Qed.

(** A non-negative answer of [find] is the index of an occurrence. *)
Lemma find_sound buf sub start :
  (0 <= find buf sub start)%Z ->
  occurs_at sub buf (Z.to_nat (find buf sub start)).
Proof.
  unfold find. set (start' := if (start <? 0)%Z then _ else _).
  assert (Hs : (0 <= start')%Z).
  { subst start'. destruct (Z.ltb_spec start 0); lia. }
  destruct (Z.ltb_spec (Z.of_nat (length buf)) start'); [lia|].
  pose proof (index_of_spec sub (skipn (Z.to_nat start') buf)) as Hspec.
  destruct (index_of sub (skipn (Z.to_nat start') buf)) as [i|]; [|lia].
  intros _. destruct Hspec as [Ho _].
  apply occurs_at_skipn in Ho; [|lia].
  now replace (Z.to_nat (start' + Z.of_nat i)) with (Z.to_nat start' + i)
    by lia.
Qed.

(** Loop invariant of [receive_until], on any stream and any offset: the
    buffer is the part of the stream consumed so far, never longer than
    [max_size]. *)
Lemma receive_until_loop_sound : forall fuel delimiter max_size offset buf s,
  length buf <= max_size ->
  match fst (receive_until_loop fuel delimiter max_size offset buf s) with
  | Returned r =>
      occurs_at delimiter (buf ++ pending s) (length r)
      /\ r = firstn (length r) (buf ++ pending s)
      /\ length r + length delimiter <= max_size
  | Raised e =>
      e = DelimiterNotFound (firstn max_size (buf ++ pending s)) false
      /\ max_size <= length (buf ++ pending s)
  | Diverged => True
  end.
Proof.
  induction fuel as [|fuel IH]; intros delimiter max_size offset buf s Hlen;
    rewrite receive_until_loop_eq;
    destruct (Nat.ltb_spec (length buf) max_size) as [Hroom|Hfull];
    try exact I.
  - simpl. rewrite firstn_app, firstn_all2, length_app by lia.
    replace (max_size - length buf) with 0 by lia.
    rewrite firstn_O, app_nil_r. split; [reflexivity | lia].
  - cbv zeta. rewrite recv_peek_same.
    set (read_size := max_size - length buf).
    pose proof (recv_consumes read_size s) as Hcons.
    pose proof (recv_length read_size false s) as Hdata.
    pose proof (recv_after_peek read_size s) as Hagain.
    rewrite recv_peek_same in Hagain. simpl fst in Hagain.
    destruct (recv read_size false s) as [data s2]. simpl in Hcons, Hdata, Hagain.
    cbn [fst].
    assert (Hsplit : buf ++ pending s = (buf ++ data) ++ pending s2)
      by now rewrite <- Hcons, app_assoc.
    assert (Hlen' : length (buf ++ data) <= max_size)
      by (rewrite length_app; lia).
    destruct (Z.leb_spec 0 (find (buf ++ data) delimiter offset)) as [Hfound|Hnot].
    + pose proof (find_sound (buf ++ data) delimiter offset Hfound) as Ho.
      set (index := Z.to_nat (find (buf ++ data) delimiter offset)) in *.
      destruct (recv (Z.to_nat (find (buf ++ data) delimiter offset + 1)) false s)
        as [x s3].
      cbn [fst].
      assert (Hi : index + length delimiter <= length (buf ++ data))
        by now destruct Ho.
      assert (Hr : length (firstn index (buf ++ data)) = index)
        by (rewrite length_firstn; lia).
      rewrite Hr, Hsplit. split; [|split].
      * now apply occurs_at_app_l.
      * rewrite (firstn_app index (buf ++ data)).
        replace (index - length (buf ++ data)) with 0 by lia.
        now rewrite firstn_O, app_nil_r.
      * lia.
    + rewrite Hagain. rewrite Hsplit. apply IH. exact Hlen'.
  - simpl. rewrite firstn_app, firstn_all2, length_app by lia.
    replace (max_size - length buf) with 0 by lia.
    rewrite firstn_O, app_nil_r. split; [reflexivity | lia].
Qed.

(** X5.  Whatever the fragmentation and the length of the delimiter: bytes
    that [receive_until] returns are followed by the delimiter in the
    incoming stream, and the two together lie within [max_size]. *)
Theorem receive_until_returns_delimited :
  forall fuel delimiter max_size chunks r,
    fst (receive_until fuel delimiter max_size (incoming chunks)) =
      Returned r ->
    (exists rest, concat chunks = r ++ delimiter ++ rest)
    /\ length r + length delimiter <= max_size.
Proof.
  intros fuel delimiter max_size chunks r Hret.
  pose proof (receive_until_loop_sound fuel delimiter max_size 0%Z []
                (incoming chunks) (Nat.le_0_l _)) as H.
  unfold receive_until in Hret. rewrite Hret in H.
  simpl in H. unfold pending in H. simpl in H.
  destruct H as [[Hl Ho] [Hr Hm]]. split; [|exact Hm].
  exists (skipn (length r + length delimiter) (concat chunks)).
  rewrite <- (firstn_skipn (length r) (concat chunks)) at 1.
  rewrite <- Hr. f_equal.
  rewrite <- (firstn_skipn (length delimiter)
                (skipn (length r) (concat chunks))) at 1.
  rewrite Ho, skipn_skipn. f_equal. f_equal. lia.
Qed.

Lemma receive_until_returns_delimited_witness :
  (exists rest,
     concat [b "a"; b "b" ++ [x0d]; [x0a] ++ b "cd"] = b "ab" ++ CRLF ++ rest)
  /\ length (b "ab") + length CRLF <= 10.
Proof.
  apply (receive_until_returns_delimited 3 CRLF 10
           [b "a"; b "b" ++ [x0d]; [x0a] ++ b "cd"] (b "ab")).
  reflexivity.
Defined.

(** X6.  Whatever the fragmentation: the only error [receive_until] raises is
    [DelimiterNotFound], and the bytes it carries are the first
    [max_size] bytes of the incoming stream. *)
Theorem receive_until_error_carries_prefix :
  forall fuel delimiter max_size chunks e,
    fst (receive_until fuel delimiter max_size (incoming chunks)) =
      Raised e ->
    e = DelimiterNotFound (firstn max_size (concat chunks)) false
    /\ max_size <= length (concat chunks).
Proof.
  intros fuel delimiter max_size chunks e Hraise.
  pose proof (receive_until_loop_sound fuel delimiter max_size 0%Z []
                (incoming chunks) (Nat.le_0_l _)) as H.
  unfold receive_until in Hraise. rewrite Hraise in H. exact H.
Qed.

Lemma receive_until_error_carries_prefix_witness :
  DelimiterNotFound (b "abcde") false =
    DelimiterNotFound (firstn 5 (concat [b "ab"; b "cdef"])) false
  /\ 5 <= length (concat [b "ab"; b "cdef"]).
Proof.
  apply (receive_until_error_carries_prefix 2 LF 5 [b "ab"; b "cdef"]
           (DelimiterNotFound (b "abcde") false)).
  reflexivity.
Defined.

Lemma pending_after_recv n s :
  pending (snd (recv n false s)) =
  skipn (length (fst (recv n false s))) (pending s).
Proof.
  rewrite <- (recv_consumes n s) at 1.
  now rewrite skipn_app, skipn_all, Nat.sub_diag.
Qed.

(** X7.  When the first read already holds the delimiter, the call returns
    the bytes before it and consumes [index + 1] bytes: all of a one-byte
    delimiter, only the first byte of a longer one. *)
Theorem receive_until_first_read :
  forall fuel delimiter max_size c rest p,
    0 < length delimiter ->
    index_of delimiter (firstn max_size c) = Some p ->
    1 <= fuel ->
    fst (receive_until fuel delimiter max_size (incoming (c :: rest))) =
      Returned (firstn p c)
    /\ pending (snd (receive_until fuel delimiter max_size
                       (incoming (c :: rest)))) =
       skipn (p + 1) (concat (c :: rest)).
Proof.
  intros fuel delimiter max_size c rest p Hd Hfirst Hfuel.
  pose proof (index_of_spec delimiter (firstn max_size c)) as Hspec.
  rewrite Hfirst in Hspec. destruct Hspec as [Ho Hmin].
  assert (Hp : p + length delimiter <= length (firstn max_size c))
    by now destruct Ho.
  pose proof (firstn_le_length max_size c) as Hmax.
  rewrite length_firstn in Hp.
  destruct fuel as [|fuel]; [lia|].
  unfold receive_until. rewrite receive_until_loop_eq.
  destruct (Nat.ltb_spec (length (@nil byte)) max_size) as [_|H0];
    [|simpl in H0; lia].
  cbv zeta. rewrite (recv_peek _ (incoming (c :: rest)) c rest eq_refl).
  change (max_size - length (@nil byte)) with (max_size - 0).
  rewrite Nat.sub_0_r. cbn [app].
  rewrite (find_first _ _ 0%Z p Ho Hmin) by lia.
  destruct (Z.leb_spec 0 (Z.of_nat p)); [|lia].
  replace (Z.to_nat (Z.of_nat p + 1)) with (p + 1) by lia.
  pose proof (pending_after_recv (p + 1) (incoming (c :: rest))) as Hpend.
  assert (Hdata : fst (recv (p + 1) false (incoming (c :: rest))) =
                  firstn (p + 1) c) by reflexivity.
  rewrite Hdata, length_firstn in Hpend.
  destruct (recv (p + 1) false (incoming (c :: rest))) as [x s2].
  cbn [fst snd] in *. rewrite Nat2Z.id, firstn_firstn. split.
  - f_equal. f_equal. lia.
  - rewrite Hpend. f_equal. lia.
Qed.

Lemma receive_until_first_read_witness :
  fst (receive_until 1 LF 1024 (incoming [b "PING" ++ LF; b "PONG"])) =
    Returned (firstn 4 (b "PING" ++ LF))
  /\ pending (snd (receive_until 1 LF 1024
                     (incoming [b "PING" ++ LF; b "PONG"]))) =
     skipn (4 + 1) (concat [b "PING" ++ LF; b "PONG"]).
Proof.
  apply (receive_until_first_read 1 LF 1024 (b "PING" ++ LF) [b "PONG"] 4).
  - simpl. lia.
  - reflexivity.
  - lia.
Defined.

Lemma index_of_short sub buf :
  length buf < length sub -> index_of sub buf = None.
Proof.
  intros Hshort. pose proof (index_of_spec sub buf) as Hspec.
  destruct (index_of sub buf) as [p|]; [|reflexivity].
  destruct Hspec as [[Hl _] _]. lia.
Qed.

(** [find] answers [-1] when fewer bytes than the delimiter has lie at or
    after the place the search starts from. *)
Lemma find_no_room buf sub start :
  (Z.of_nat (length buf) <
   (if (start <? 0)%Z then Z.max 0 (start + Z.of_nat (length buf))
    else start) + Z.of_nat (length sub))%Z ->
  find buf sub start = (-1)%Z.
Proof.
  unfold find. set (start' := if (start <? 0)%Z then _ else _).
  intros Hroom.
  destruct (Z.ltb_spec (Z.of_nat (length buf)) start'); [reflexivity|].
  rewrite index_of_short; [reflexivity|].
  rewrite length_skipn.
  assert (0 <= start')%Z
    by (subst start'; destruct (Z.ltb_spec start 0); lia).
  lia.
Qed.

(** X8.  A delimiter of three bytes or more that arrives right after a first
    read of one byte is skipped: the offset has gone negative, and the
    search of the second round starts behind the delimiter.  When the
    two reads fill [max_size], the call raises [DelimiterNotFound] with a
    buffer that holds the delimiter. *)
Theorem receive_until_skips_after_short_read :
  forall fuel x delimiter tail,
    3 <= length delimiter ->
    2 <= fuel ->
    fst (receive_until fuel delimiter
           (1 + length delimiter + length tail)
           (incoming [[x]; delimiter ++ tail])) =
      Raised (DelimiterNotFound ([x] ++ delimiter ++ tail) false)
    /\ exists p,
         index_of delimiter ([x] ++ delimiter ++ tail) = Some p
         /\ p + length delimiter <= 1 + length delimiter + length tail.
Proof.
  intros fuel x delimiter tail Hd Hfuel. split.
  - destruct fuel as [|[|fuel]]; try lia.
    set (max_size := 1 + length delimiter + length tail).
    unfold receive_until. rewrite receive_until_loop_eq.
    destruct (Nat.ltb_spec (length (@nil byte)) max_size) as [_|H0];
      [|simpl in H0; lia].
    cbv zeta.
    rewrite (recv_peek _ (incoming [[x]; delimiter ++ tail]) [x]
               [delimiter ++ tail] eq_refl).
    rewrite (firstn_all2 [x]) by (subst max_size; simpl; lia).
    cbn [app]. rewrite find_no_room by (simpl; lia).
    cbn [Z.leb Z.compare].
    rewrite (recv_whole (incoming [[x]; delimiter ++ tail]) [x]
               [delimiter ++ tail] eq_refl).
    rewrite receive_until_loop_eq.
    destruct (Nat.ltb_spec (length [x]) max_size) as [_|H1];
      [|simpl in H1; lia].
    cbv zeta.
    erewrite recv_peek by reflexivity.
    rewrite (firstn_all2 (delimiter ++ tail))
      by (rewrite length_app; simpl; lia).
    rewrite find_no_room.
    + cbn [Z.leb Z.compare].
      erewrite recv_whole by reflexivity.
      rewrite receive_until_loop_full; [reflexivity|].
      rewrite !length_app. simpl. lia.
    + rewrite !length_app. cbn [length].
      destruct (Z.ltb_spec
                  (0 + Z.of_nat 1 - Z.of_nat (length delimiter) + 1) 0); lia.
  - assert (Ho : occurs_at delimiter ([x] ++ delimiter ++ tail) 1).
    { split.
      - rewrite !length_app. simpl. lia.
      - simpl. rewrite firstn_app, firstn_all, Nat.sub_diag, firstn_O.
        apply app_nil_r. }
    pose proof (index_of_spec delimiter ([x] ++ delimiter ++ tail)) as Hspec.
    destruct (index_of delimiter ([x] ++ delimiter ++ tail)) as [p|].
    + exists p. split; [reflexivity|].
      destruct Hspec as [_ Hmin].
      destruct (Nat.le_gt_cases p 1) as [Hle|Hgt]; [lia|].
      exfalso. exact (Hmin 1 Hgt Ho).
    + exfalso. exact (Hspec 1 Ho).
Qed.

Lemma receive_until_skips_after_short_read_witness :
  fst (receive_until 2 (b "XYZ")
         (1 + length (b "XYZ") + length (b "bc"))
         (incoming [[x61]; b "XYZ" ++ b "bc"])) =
    Raised (DelimiterNotFound ([x61] ++ b "XYZ" ++ b "bc") false)
  /\ exists p,
       index_of (b "XYZ") ([x61] ++ b "XYZ" ++ b "bc") = Some p
       /\ p + length (b "XYZ") <= 1 + length (b "XYZ") + length (b "bc").
Proof.
  apply (receive_until_skips_after_short_read 2 x61 (b "XYZ") (b "bc"));
    simpl; lia.
Defined.

(** X3.  On any stream shorter than [nbytes], [receive_exactly] neither
    returns nor raises, whatever the round budget. *)
Theorem receive_exactly_never_ends_on_short_stream :
  forall fuel nbytes chunks,
    length (concat chunks) < nbytes ->
    fst (receive_exactly fuel nbytes (incoming chunks)) = Diverged.
Proof.
  intros fuel nbytes chunks Hshort.
  now apply receive_exactly_loop_starves.
Qed.

Lemma receive_exactly_never_ends_on_short_stream_witness :
  fst (receive_exactly 100 5 (incoming [b "ab"; b "cd"])) = Diverged.
Proof.
  apply (receive_exactly_never_ends_on_short_stream 100 5 [b "ab"; b "cd"]).
  simpl. lia.
Defined.

(** X29.  On any stream that ends before [max_size] bytes and does not
    hold the delimiter, [receive_until] neither returns nor raises,
    whatever the fragmentation and the round budget: no
    [DelimiterNotFound] tells the caller that the peer has closed. *)
Theorem receive_until_never_ends_on_short_stream :
  forall fuel delimiter max_size chunks,
    index_of delimiter (concat chunks) = None ->
    length (concat chunks) < max_size ->
    fst (receive_until fuel delimiter max_size (incoming chunks)) = Diverged.
Proof.
  intros fuel delimiter max_size chunks Habsent Hshort.
  unfold receive_until. now apply receive_until_loop_starves.
Qed.

Lemma receive_until_never_ends_on_short_stream_witness :
  fst (receive_until 100 CRLF 8 (incoming [b "ab"; b "cd"])) = Diverged.
Proof.
  apply (receive_until_never_ends_on_short_stream 100 CRLF 8
           [b "ab"; b "cd"]).
  - reflexivity.
  - simpl. lia.
Defined.

Lemma receive_exactly_loop_rx_length : forall fuel buf pos nbytes s,
  length (rx (snd (receive_exactly_loop fuel buf pos nbytes s))) <=
  length (rx s).
Proof.
  induction fuel as [|fuel IH]; intros buf pos nbytes s;
    rewrite receive_exactly_loop_eq; destruct (nbytes =? 0); simpl; auto.
  unfold recv_into. pose proof (recv_rx_length nbytes false s) as Hrx.
  destruct (recv nbytes false s) as [data s']. simpl in Hrx.
  etransitivity; [apply IH | exact Hrx].
Qed.

Lemma firstn_add (l : bytes) n m :
  firstn (n + m) l = firstn n l ++ firstn m (skipn n l).
Proof.
  rewrite <- (firstn_skipn n (firstn (n + m) l)).
  rewrite firstn_firstn, firstn_skipn_comm. f_equal. f_equal. lia.
Qed.

(** X4.  Two exact reads in a row return consecutive parts of the stream:
    together, what one exact read of the summed length returns. *)
Theorem receive_exactly_twice :
  forall n m chunks fuel1 fuel2,
    n + m <= length (concat chunks) ->
    length chunks <= fuel1 ->
    length chunks <= fuel2 ->
    exists r1 r2,
      fst (receive_exactly fuel1 n (incoming chunks)) = Returned r1
      /\ fst (receive_exactly fuel2 m
                (snd (receive_exactly fuel1 n (incoming chunks)))) =
         Returned r2
      /\ fst (receive_exactly fuel1 (n + m) (incoming chunks)) =
         Returned (r1 ++ r2).
Proof.
  intros n m chunks fuel1 fuel2 Hlen Hf1 Hf2.
  destruct (receive_exactly_loop_fills chunks (incoming chunks) [] n fuel1
              eq_refl) as [Hr1 Hp1]; [lia | exact Hf1 |].
  destruct (receive_exactly_loop_fills chunks (incoming chunks) [] (n + m)
              fuel1 eq_refl Hlen Hf1) as [Hr12 _].
  set (s1 := snd (receive_exactly fuel1 n (incoming chunks))).
  assert (Hrx1 : length (rx s1) <= fuel2).
  { etransitivity; [apply receive_exactly_loop_rx_length | exact Hf2]. }
  assert (Hp1' : pending s1 = skipn n (concat chunks)) by exact Hp1.
  destruct (receive_exactly_loop_fills (rx s1) s1 [] m fuel2 eq_refl)
    as [Hr2 _]; [ | exact Hrx1 | ].
  { change (concat (rx s1)) with (pending s1).
    rewrite Hp1', length_skipn. lia. }
  exists (firstn n (concat chunks)), (firstn m (skipn n (concat chunks))).
  split; [exact Hr1 | split].
  - unfold receive_exactly. simpl in Hr2. rewrite Hr2.
    change (concat (rx s1)) with (pending s1). now rewrite Hp1'.
  - unfold receive_exactly. simpl in Hr12. rewrite Hr12.
    now rewrite firstn_add.
Qed.

Lemma receive_exactly_twice_witness :
  exists r1 r2,
    fst (receive_exactly 3 2 (incoming [b "a"; b "bcd"; b "ef"])) =
      Returned r1
    /\ fst (receive_exactly 3 3
              (snd (receive_exactly 3 2 (incoming [b "a"; b "bcd"; b "ef"])))) =
       Returned r2
    /\ fst (receive_exactly 3 (2 + 3) (incoming [b "a"; b "bcd"; b "ef"])) =
       Returned (r1 ++ r2).
Proof.
  apply (receive_exactly_twice 2 3 [b "a"; b "bcd"; b "ef"] 3 3);
    simpl; lia.
Defined.

End StreamBehaviour.

(** ** send_all: what reaches the handle on every schedule *)

Section SendAllBehaviour.
Import Socket SocketStream.

(** Loop invariant: [to_send] never exceeds the payload's length; every
    write hands over a prefix of the payload; the writes stop once their
    shares add up to [to_send]. *)
Lemma send_all_loop_returns : forall fuel data to_send s,
  Forall (fun k => 1 <= k) (tx_accepts s) ->
  (to_send <= Z.of_nat (length data))%Z ->
  Z.to_nat to_send <= fuel ->
  exists segs,
    fst (send_all_loop fuel data to_send s) = Returned tt
    /\ wire (snd (send_all_loop fuel data to_send s)) = wire s ++ concat segs
    /\ Forall (fun seg => exists n, seg = firstn n data) segs
    /\ (to_send <= Z.of_nat (length (concat segs)))%Z
    /\ length segs <= Z.to_nat to_send.
Proof.
  induction fuel as [|fuel IH]; intros data to_send s Hpos Hle Hfuel;
    rewrite send_all_loop_eq;
    destruct (Z.ltb_spec 0 to_send) as [Hmore|Hdone];
    try lia;
    try (exists []; simpl; rewrite app_nil_r;
         repeat split; [constructor | lia | lia]).
  unfold send. destruct (tx_accepts s) as [|k ks] eqn:Htx.
  - destruct (IH data (to_send - Z.of_nat (length data))%Z
                {| rx := rx s; tx_accepts := []; wire := wire s ++ data |})
      as [segs [Hr [Hw [Hp [Hs Hn]]]]]; [constructor | lia | lia |].
    exists (data :: segs). rewrite Hr, Hw. simpl.
    rewrite length_app, <- app_assoc. repeat split.
    + constructor; [|exact Hp]. exists (length data).
      now rewrite firstn_all.
    + lia.
    + lia.
  - inversion Hpos as [|k' ks' Hk Hks]; subst k' ks'.
    set (n := Nat.min k (length data)).
    assert (Hn1 : 1 <= n) by (subst n; lia).
    assert (Hseg : length (firstn n data) = n)
      by (rewrite length_firstn; subst n; lia).
    destruct (IH data (to_send - Z.of_nat n)%Z
                {| rx := rx s; tx_accepts := ks;
                   wire := wire s ++ firstn n data |})
      as [segs [Hr [Hw [Hp [Hs Hn]]]]]; [exact Hks | lia | lia |].
    exists (firstn n data :: segs). rewrite Hr, Hw. simpl.
    rewrite length_app, Hseg, <- app_assoc. repeat split.
    + constructor; [|exact Hp]. now exists n.
    + lia.
    + lia.
Qed.

(** X9.  On a handle that accepts at least one byte per write, [send_all]
    returns after at most [len(data)] writes; the handle has then accepted
    at least [len(data)] bytes, the share of every write being a prefix of
    the payload. *)
Theorem send_all_returns_with_prefixes :
  forall data accepts fuel,
    Forall (fun k => 1 <= k) accepts ->
    length data <= fuel ->
    exists segs,
      fst (send_all fuel data (outgoing accepts)) = Returned tt
      /\ wire (snd (send_all fuel data (outgoing accepts))) = concat segs
      /\ Forall (fun seg => exists n, seg = firstn n data) segs
      /\ length data <= length (concat segs)
      /\ length segs <= length data.
Proof.
  intros data accepts fuel Hpos Hfuel.
  destruct (send_all_loop_returns fuel data (Z.of_nat (length data))
              (outgoing accepts) Hpos) as [segs [Hr [Hw [Hp [Hs Hn]]]]];
    [lia | lia |].
  exists segs. unfold send_all. rewrite Hr, Hw. simpl.
  repeat split; [exact Hp | lia | lia].
Qed.

Lemma send_all_returns_with_prefixes_witness :
  exists segs,
    fst (send_all 3 (b "abc") (outgoing [2; 1])) = Returned tt
    /\ wire (snd (send_all 3 (b "abc") (outgoing [2; 1]))) = concat segs
    /\ Forall (fun seg => exists n, seg = firstn n (b "abc")) segs
    /\ length (b "abc") <= length (concat segs)
    /\ length segs <= length (b "abc").
Proof.
  apply (send_all_returns_with_prefixes (b "abc") [2; 1] 3).
  - repeat constructor.
  - simpl. lia.
Defined.

(** X10.  When the first write accepts the whole payload (the handle takes all
    it is offered, or at least [len(data)] bytes), the handle has accepted
    exactly the payload and [send_all] returns after that one write. *)
Theorem send_all_exact_when_first_write_completes :
  forall data accepts fuel,
    length data <= hd (length data) accepts ->
    1 <= fuel ->
    fst (send_all fuel data (outgoing accepts)) = Returned tt
    /\ wire (snd (send_all fuel data (outgoing accepts))) = data
    /\ length (tx_accepts (snd (send_all fuel data (outgoing accepts)))) + 1
       >= length accepts.
Proof.
  intros data accepts fuel Hfull Hfuel.
  destruct fuel as [|fuel]; [lia|].
  unfold send_all. rewrite send_all_loop_eq.
  destruct (Z.ltb_spec 0 (Z.of_nat (length data))) as [Hpos|Hempty].
  - unfold send, outgoing. cbn [tx_accepts rx wire app].
    destruct accepts as [|k ks]; cbn [hd] in Hfull;
      rewrite send_all_loop_eq.
    + destruct (Z.ltb_spec 0 (Z.of_nat (length data) - Z.of_nat (length data)));
        [lia|]. simpl. repeat split. lia.
    + rewrite Nat.min_r by lia.
      destruct (Z.ltb_spec 0 (Z.of_nat (length data) - Z.of_nat (length data)));
        [lia|]. simpl. rewrite firstn_all. repeat split. lia.
  - destruct data; [|simpl in Hempty; lia]. simpl. repeat split. lia.
Qed.

Lemma send_all_exact_when_first_write_completes_witness :
  fst (send_all 1 (b "abc") (outgoing [8; 1])) = Returned tt
  /\ wire (snd (send_all 1 (b "abc") (outgoing [8; 1]))) = b "abc"
  /\ length (tx_accepts (snd (send_all 1 (b "abc") (outgoing [8; 1])))) + 1
     >= length [8; 1].
Proof.
  apply (send_all_exact_when_first_write_completes (b "abc") [8; 1] 1);
    simpl; lia.
Defined.

(** [send_all_one_byte_writes] at three writes of one byte each for the
    payload ["abc"]. *)
Lemma send_all_one_byte_writes_witness :
  send_all 3 (b "abc") (outgoing (repeat 1 (S (length (b "bc"))))) =
  (Returned tt,
   {| rx := []; tx_accepts := [];
      wire := repeat x61 (S (length (b "bc"))) |}).
Proof.
  apply (send_all_one_byte_writes x61 (b "bc") 3). simpl. lia.
Defined.

End SendAllBehaviour.

(** ** Task groups and timeouts: composition and what never escapes *)

Section GroupBehaviour.
Import Awaitable TaskGroups.

(** Spawns into an active group with an open nursery append to the
    nursery's children. *)
Lemma spawn_each_open :
  forall ts children scope finished,
    spawn_each {| _active := true;
                  _nursery :=
                    {| Trio.children := children;
                       Trio.nursery_scope := scope;
                       Trio.closed := false;
                       Trio.body_finished := finished |} |} ts =
      (repeat (Returned tt) (length ts),
       {| _active := true;
          _nursery :=
            {| Trio.children := children ++ ts;
               Trio.nursery_scope := scope;
               Trio.closed := false;
               Trio.body_finished := finished |} |}).
Proof.
  induction ts as [|t ts IH]; intros children scope finished.
  - simpl. now rewrite app_nil_r.
  - cbn [spawn_each spawn Trio.start_soon _active negb _nursery Trio.closed
           Trio.children Trio.nursery_scope Trio.body_finished].
    rewrite IH. simpl. now rewrite <- app_assoc.
Qed.

(** X12.  Spawning a list of tasks into an active group whose nursery is
    open starts every one of them, in the order of the calls, after the
    tasks already started, and leaves the group active.  Spawning into an
    inactive group raises the "not active" error for every one, and
    spawning into an active group whose nursery is closed raises the
    nursery's error for every one; both leave the group as it was. *)
Theorem spawn_each_keeps_order :
  forall ts children scope finished,
    spawn_each {| _active := true;
                  _nursery :=
                    {| Trio.children := children;
                       Trio.nursery_scope := scope;
                       Trio.closed := false;
                       Trio.body_finished := finished |} |} ts =
      (repeat (Returned tt) (length ts),
       {| _active := true;
          _nursery :=
            {| Trio.children := children ++ ts;
               Trio.nursery_scope := scope;
               Trio.closed := false;
               Trio.body_finished := finished |} |})
    /\ (forall nursery,
          spawn_each {| _active := false; _nursery := nursery |} ts =
          (repeat (Raised (RuntimeError not_active_message)) (length ts),
           {| _active := false; _nursery := nursery |}))
    /\ spawn_each {| _active := true;
                     _nursery :=
                       {| Trio.children := children;
                          Trio.nursery_scope := scope;
                          Trio.closed := true;
                          Trio.body_finished := finished |} |} ts =
       (repeat (Raised (RuntimeError Trio.closed_message)) (length ts),
        {| _active := true;
           _nursery :=
             {| Trio.children := children;
                Trio.nursery_scope := scope;
                Trio.closed := true;
                Trio.body_finished := finished |} |}).
Proof.
  intros ts children scope finished. split; [apply spawn_each_open|]. split.
  - intros nursery. induction ts as [|t ts IH]; [reflexivity|].
    cbn [spawn_each spawn _active negb _nursery]. now rewrite IH.
  - induction ts as [|t ts IH]; [reflexivity|].
    cbn [spawn_each spawn Trio.start_soon _active negb _nursery Trio.closed].
    now rewrite IH.
Qed.

(** A task that ended without an error of its own does not show among
    the errors, wherever it is sorted in. *)
Lemma errors_of_insert_quiet t : forall ts,
  Trio.task_error t = None ->
  Trio.errors_of (Trio.insert_by_finish t ts) = Trio.errors_of ts.
Proof.
  intros ts Hq. induction ts as [|u ts IH]; simpl.
  - now rewrite Hq.
  - destruct (Trio.task_finished t <=? Trio.task_finished u); simpl.
    + now rewrite Hq.
    + now rewrite IH.
Qed.

(** X13.  A group whose block spawns the tasks [ts] and ends normally
    reports exactly the errors those tasks end with, in the order in which
    the tasks ended: none, the exit is normal; one, it is raised as it is
    (a scheduler aggregate raised by a single child is re-wrapped);
    several, all of them in one [ExceptionGroup].  That order is a
    rearrangement of the order of the spawns. *)
Theorem create_task_group_reports_children :
  forall ts,
    fst (create_task_group (spawning_block ts)) =
      match Trio.child_errors ts with
      | [] => Returned tt
      | [MultiError exceptions] => Raised (ExceptionGroup exceptions)
      | [e] => Raised e
      | e :: es => Raised (ExceptionGroup (e :: es))
      end
    /\ Permutation (Trio.child_errors ts) (Trio.errors_of ts).
Proof.
  intros ts. split.
  - rewrite create_task_group_eq. cbv zeta.
    unfold spawning_block, fresh_group, TaskGroup__init__, Trio.open_nursery.
    cbn [fst snd Trio.children Trio.nursery_scope Trio.closed
           Trio.body_finished].
    rewrite spawn_each_open. cbn [snd _nursery app].
    unfold Trio.nursery_exit. cbn [Trio.children Trio.by_finish].
    rewrite errors_of_insert_quiet by reflexivity.
    fold (Trio.child_errors ts).
    destruct (Trio.child_errors ts) as [|e [|e2 es]]; try reflexivity;
      destruct e; reflexivity.
  - apply errors_of_perm, by_finish_perm.
Qed.

(** X14.  The scheduler's own aggregate never comes out of a task group,
    whatever the block and the children do. *)
Theorem create_task_group_never_raises_MultiError :
  forall block exceptions,
    fst (create_task_group block) <> Raised (MultiError exceptions).
Proof.
  intros block exceptions. rewrite create_task_group_eq. cbv zeta.
  cbn [fst].
  match goal with
  | |- context [Trio.nursery_exit ?be ?n] =>
      destruct (Trio.nursery_exit be n) as [[]|[]|]
  end; discriminate.
Qed.

(** X15.  An application error raised by the block itself counts like a
    child's: alone it is raised as it is; together with children's errors
    it is one of the members of the [ExceptionGroup], which holds it and
    every child's error, in whatever order they came. *)
Theorem create_task_group_block_error :
  forall block e,
    fst (block fresh_group) = Failed e ->
    is_application_error e = true ->
    (errors_at_exit block = [] ->
     fst (create_task_group block) = Raised e)
    /\ (errors_at_exit block <> [] ->
        exists exceptions,
          fst (create_task_group block) = Raised (ExceptionGroup exceptions)
          /\ Permutation exceptions (e :: errors_at_exit block)).
Proof.
  intros block e Hfail Happ. rewrite create_task_group_eq. cbv zeta.
  cbn [fst]. unfold Trio.nursery_exit.
  pose proof (collected_errors
                (match fst (block fresh_group) with
                 | Failed e => Some e | _ => None end)
                (_nursery (snd (block fresh_group)))) as Hperm.
  fold (errors_at_exit block) in Hperm.
  set (errors := Trio.errors_of (Trio.by_finish _)) in *.
  rewrite Hfail in Hperm.
  assert (Hown : Trio.errors_of
                   [Trio.body_task (Some e)
                      (_nursery (snd (block fresh_group)))] = [e])
    by (simpl; destruct e; simpl in Happ; try discriminate; reflexivity).
  rewrite Hown in Hperm. simpl in Hperm. split.
  - intros Hnone. rewrite Hnone in Hperm.
    apply Permutation_sym, Permutation_length_1_inv in Hperm.
    rewrite Hperm. destruct e; simpl in Happ; try discriminate; reflexivity.
  - intros Hsome. exists errors.
    assert (Hlen : 2 <= length errors).
    { rewrite (Permutation_length Hperm).
      destruct (errors_at_exit block); [congruence | simpl; lia]. }
    destruct errors as [|e1 [|e2 rest]]; simpl in Hlen; try lia.
    split; [reflexivity | exact Hperm].
Qed.

Lemma create_task_group_block_error_witness :
  (errors_at_exit raising_with_child = [] ->
   fst (create_task_group raising_with_child) = Raised (AppError 1))
  /\ (errors_at_exit raising_with_child <> [] ->
      exists exceptions,
        fst (create_task_group raising_with_child) =
          Raised (ExceptionGroup exceptions)
        /\ Permutation exceptions
             (AppError 1 :: errors_at_exit raising_with_child)).
Proof.
  apply (create_task_group_block_error raising_with_child (AppError 1));
    reflexivity.
Defined.

(** X17.  [TooSlowError] never comes out of [fail_after], whether the deadline
    fired or the operation raised it on its own. *)
Theorem fail_after_never_raises_TooSlowError :
  forall A seconds (op : Trio.operation A) tb,
    Timeouts.fail_after seconds op <> Raised (TooSlowError tb).
Proof.
  intros A seconds op tb. unfold Timeouts.fail_after.
  destruct (Trio.fail_after seconds op) as [a|[]|]; discriminate.
Qed.

(** X18.  An operation that ends within the deadline, with anything but the
    scheduler's [TooSlowError], ends in the same way under
    [fail_after]. *)
Theorem fail_after_passes_through :
  forall A seconds (op : Trio.operation A),
    Trio.duration op <= seconds ->
    (forall tb, Trio.completion op <> Raised (TooSlowError tb)) ->
    Timeouts.fail_after seconds op = Trio.completion op.
Proof.
  intros A seconds op Hin Hown.
  unfold Timeouts.fail_after, Trio.fail_after.
  destruct (Nat.ltb_spec seconds (Trio.duration op)); [lia|].
  destruct (Trio.completion op) as [a|e|]; try reflexivity.
  destruct e; try reflexivity. now destruct (Hown tb).
Qed.

Lemma fail_after_passes_through_witness :
  Timeouts.fail_after 1000
    {| Trio.duration := 10; Trio.completion := Raised (AppError 3) |} =
  Trio.completion
    {| Trio.duration := 10;
       Trio.completion := @Raised unit (AppError 3) |}.
Proof.
  apply (fail_after_passes_through unit 1000
           {| Trio.duration := 10; Trio.completion := Raised (AppError 3) |}).
  - simpl. lia.
  - intros tb. discriminate.
Defined.

End GroupBehaviour.
